(** * Chameleon: the deterministic generation core

    A shallow embedding of the seed manager ([SeedManager]), the profile
    synthesizer ([SpoofingEngine]) and the canvas noise pass
    ([CanvasInterceptor]) of the Chameleon browser extension, with the
    properties its specification states about them.

    Conventions of the embedding.

    - JavaScript strings are sequences of UTF-16 code units; the strings of
      this program (hex seeds, decimal indices, catalog names) are modelled
      as [string], one [ascii] per code unit, which covers the code units
      0..255.
    - Integers that the code keeps in Numbers are [Z]; the 32-bit
      conversions of the bit operators and of [Math.imul] are written out.
    - The Numbers of the seed manager that are not integers (the
      normalised draw, the weights and their products) are exact rationals
      [Q].  The binary64 quotient [num / 0xFFFFFFFF] is 1 when [num] is
      [0xFFFFFFFF] and below 1 by more than 2^-33 otherwise, so the
      comparisons of a draw with 0 and 1 and the range of
      [Math.floor(rand * n)] are the same on the rationals.  Which element
      a draw selects is evaluated below only at draws that are not within
      rounding distance of a boundary.
    - The Numbers of the canvas pass are IEEE-754 binary64 values, the
      kernel's primitive [float], so that the edge classification and the
      rounding of the typed-array store are the ones the engine computes.
    - A call either returns or throws: [completion]. *)

From Stdlib Require Import ZArith QArith Qround String Ascii List Lia Lqa.
From Stdlib Require Import Floats DecimalString Strings.Byte.
From stdpp Require Import base list gmap.

Set Warnings "-inexact-float".

Local Open Scope Z_scope.

(** ** JavaScript values and primitives *)

Module JS.

Inductive error : Type := TypeError | RangeError.

Inductive completion (A : Type) : Type :=
| Normal (a : A)
| Throw (e : error).
Arguments Normal {A} a.
Arguments Throw {A} e.

Definition bind {A B : Type} (c : completion A) (k : A -> completion B)
  : completion B :=
  match c with
  | Normal a => k a
  | Throw e => Throw e
  end.

Definition is_throw {A : Type} (c : completion A) : bool :=
  match c with Throw _ => true | Normal _ => false end.

(** A value that may be [undefined] or [null]. *)
Inductive maybe (A : Type) : Type :=
| undefined
| null
| val (a : A).
Arguments undefined {A}.
Arguments null {A}.
Arguments val {A} a.

(** ToInt32 and ToUint32 on integers. *)
Definition ToUint32 (z : Z) : Z := z mod 2 ^ 32.
Definition ToInt32 (z : Z) : Z := (z + 2 ^ 31) mod 2 ^ 32 - 2 ^ 31.

(** [a ^ b] *)
Definition xor32 (a b : Z) : Z := ToInt32 (Z.lxor (ToInt32 a) (ToInt32 b)).
(** [a & b] *)
Definition and32 (a b : Z) : Z := ToInt32 (Z.land (ToInt32 a) (ToInt32 b)).
(** [a << n] *)
Definition shl32 (a n : Z) : Z := ToInt32 (Z.shiftl (ToInt32 a) (n mod 32)).
(** [Math.imul(a, b)] *)
Definition imul (a b : Z) : Z := ToInt32 (ToUint32 a * ToUint32 b).

(** [str.charCodeAt(i)] for the code unit [c] at [i]. *)
Definition charCode (c : ascii) : Z := Z.of_N (N_of_ascii c).

(** [String(n)] for an integer Number (of magnitude below 10^21). *)
Definition number_to_string (n : Z) : string :=
  NilZero.string_of_int (Z.to_int n).

(** [c.toLowerCase()] on one code unit below 256: A-Z and the Latin-1
    capitals (except the multiplication sign) move up by 32. *)
Definition lower_unit (c : ascii) : ascii :=
  let n := N_of_ascii c in
  if ((65 <=? n) && (n <=? 90))%N then ascii_of_N (n + 32)
  else if ((192 <=? n) && (n <=? 222) && negb (n =? 215))%N
       then ascii_of_N (n + 32)
  else c.

Fixpoint toLowerCase (s : string) : string :=
  match s with
  | EmptyString => EmptyString
  | String c s' => String (lower_unit c) (toLowerCase s')
  end.

(** [s.includes(t)] *)
Fixpoint includes (s t : string) : bool :=
  String.prefix t s
  || match s with
     | EmptyString => false
     | String _ s' => includes s' t
     end.

(** [n.toString(16)] for a non-negative integer: lowercase digits, no
    leading zero. *)
Definition hex_digit (d : Z) : ascii :=
  if d <? 10 then ascii_of_N (Z.to_N (48 + d))
  else ascii_of_N (Z.to_N (87 + d)).

Fixpoint hex_digits (fuel : nat) (n : Z) (acc : string) : string :=
  match fuel with
  | O => acc
  | S fuel' =>
      let acc' := String (hex_digit (n mod 16)) acc in
      if n / 16 =? 0 then acc' else hex_digits fuel' (n / 16) acc'
  end.

Definition toString16 (n : Z) : string :=
  hex_digits (S (Z.to_nat (Z.log2 n))) n EmptyString.

(** [s.padStart(len, '0')] *)
Fixpoint zeros (k : nat) (s : string) : string :=
  match k with
  | O => s
  | S k' => String "0"%char (zeros k' s)
  end.

Definition padStart0 (len : nat) (s : string) : string :=
  zeros (len - String.length s) s.

(** [s.substr(0, len)] *)
Definition substr0 (len : nat) (s : string) : string :=
  String.substring 0 len s.

(** [parseInt(s, 16)] on a string that starts with a hex digit: digits
    are read up to the first other character.  (With no leading digit
    the engine gives NaN; here the accumulator, 0, is returned.  The only
    caller passes eight hex digits, see [hash_hex8].) *)
Definition hex_value (c : ascii) : option Z :=
  let n := Z.of_N (N_of_ascii c) in
  if (48 <=? n) && (n <=? 57) then Some (n - 48)
  else if (97 <=? n) && (n <=? 102) then Some (n - 87)
  else if (65 <=? n) && (n <=? 70) then Some (n - 55)
  else None.

Fixpoint parse_hex (s : string) (acc : Z) : Z :=
  match s with
  | EmptyString => acc
  | String c s' =>
      match hex_value c with
      | Some d => parse_hex s' (acc * 16 + d)
      | None => acc
      end
  end.

Definition parseInt16 (s : string) : Z := parse_hex s 0.

End JS.

Export JS.

(** ** SeedManager *)

Module SeedManager.

Definition FNV_OFFSET_BASIS : Z := 2166136261.
Definition FNV_PRIME : Z := 16777619.

(** The body of the loop of [hash]:
    [hash ^= str.charCodeAt(i); hash = Math.imul(hash, FNV_PRIME)]. *)
Definition hash_step (hash : Z) (c : ascii) : Z :=
  imul (xor32 hash (charCode c)) FNV_PRIME.

Fixpoint hash_loop (str : string) (hash : Z) : Z :=
  match str with
  | EmptyString => hash
  | String c str' => hash_loop str' (hash_step hash c)
  end.

(** [(hash >>> 0)] after the loop. *)
Definition hash32 (str : string) : Z :=
  ToUint32 (hash_loop str FNV_OFFSET_BASIS).

(** [hash(str)]: the hash as eight hex digits. *)
Definition hash (str : string) : string :=
  padStart0 8 (toString16 (hash32 str)).

(** The template literal [`${seed}-${index}`]. *)
Definition key (seed : string) (index : Z) : string :=
  (seed ++ "-" ++ number_to_string index)%string.

(** [random(index)], given the seed that [getSeed()] returns:
    [parseInt(hash.substr(0, 8), 16) / 0xFFFFFFFF]. *)
Definition random (seed : string) (index : Z) : Q :=
  let h := hash (key seed index) in
  let num := parseInt16 (substr0 8 h) in
  (inject_Z num / inject_Z 4294967295)%Q.

(** [randomInt(min, max, index)] for integers [min] and [max].  The code
    computes [max - min + 1], the product with the draw and the sum with
    [min] in binary64: for [min] and [max] of magnitude below 2^52 the
    difference and the sum are exact and the result lies in the same range
    as here; from 2^53 on the code rounds them, and this definition does
    not describe it. *)
Definition randomInt (seed : string) (min max index : Z) : completion Z :=
  let rand := random seed index in
  Normal (Qfloor (rand * inject_Z (max - min + 1)) + min).

(** [array[idx]]: [undefined] outside the array. *)
Definition array_get {A : Type} (array : list A) (idx : Z) : maybe A :=
  if idx <? 0 then undefined
  else match array !! Z.to_nat idx with
       | Some a => val a
       | None => undefined
       end.

(** [randomChoice(array, index)] *)
Definition randomChoice {A : Type} (seed : string) (array : list A)
    (index : Z) : completion (maybe A) :=
  match array with
  | [] => Normal null
  | _ =>
      bind (randomInt seed 0 (Z.of_nat (length array) - 1) index)
           (fun idx => Normal (array_get array idx))
  end.

(** The loop of [randomWeightedChoice].  [r] is the running [random];
    [None] is NaN (a weight missing from [weights]), for which
    [random <= 0] is false.  The remainder is an exact rational.  The
    code's binary64 remainder can differ from it in sign, and the code
    then returns a neighbouring item, only when the scaled draw is within
    rounding distance of a partial sum of the weights; for positive
    integer weights of a total up to 65536 the subtractions of the code
    are exact, and that is only when the scaled draw equals a partial
    sum. *)
Fixpoint weighted_loop {A : Type} (items : list A) (weights : list Q)
    (r : option Q) : option A :=
  match items with
  | [] => None
  | it :: items' =>
      let r' := match r, weights with
                | Some q, w :: _ => Some (q - w)%Q
                | _, _ => None
                end in
      if match r' with Some q => Qle_bool q 0 | None => false end
      then Some it
      else weighted_loop items' (tail weights) r'
  end.

(** [randomWeightedChoice(items, weights, index)] *)
Definition randomWeightedChoice {A : Type} (seed : string) (items : list A)
    (weights : list Q) (index : Z) : completion (maybe A) :=
  match items with
  | [] => Normal null
  | it0 :: _ =>
      let totalWeight := fold_left Qplus weights 0%Q in
      let r := (random seed index * totalWeight)%Q in
      match weighted_loop items weights (Some r) with
      | Some it => Normal (val it)
      | None => Normal (val (List.last items it0))
      end
  end.

(** *** Seed lifecycle

    The mutable fields of the object: [currentSeed] and the Map
    [domainSeeds], kept in insertion order.  [window.location.hostname]
    (the result of [getCurrentDomain()]) and the 64 hex digits that
    [crypto.getRandomValues] or the [Math.random] fallback produce are
    inputs of the calls: [domain] and [fresh]. *)

Record state : Type := {
  currentSeed : maybe string;
  domainSeeds : list (string * maybe string)
}.

(** [new Map()] and [currentSeed: null]. *)
Definition initial : state :=
  {| currentSeed := null; domainSeeds := [] |}.

(** Truthiness of a seed value: [undefined], [null] and the empty string
    are falsy. *)
Definition truthy (v : maybe string) : bool :=
  match v with
  | val s => negb (String.eqb s "")
  | _ => false
  end.

(** [map.has(k)] *)
Definition map_has (m : list (string * maybe string)) (k : string) : bool :=
  existsb (fun p => String.eqb (fst p) k) m.

(** [map.get(k)] *)
Fixpoint map_get (m : list (string * maybe string)) (k : string)
  : maybe string :=
  match m with
  | [] => undefined
  | (k', v) :: m' => if String.eqb k' k then v else map_get m' k
  end.

(** [map.set(k, v)]: an existing key keeps its place, a new key goes last. *)
Fixpoint map_set (m : list (string * maybe string)) (k : string)
    (v : maybe string) : list (string * maybe string) :=
  match m with
  | [] => [(k, v)]
  | (k', v') :: m' =>
      if String.eqb k' k then (k', v) :: m' else (k', v') :: map_set m' k v
  end.

(** [map.delete(k)] *)
Definition map_delete (m : list (string * maybe string)) (k : string)
  : list (string * maybe string) :=
  List.filter (fun p => negb (String.eqb (fst p) k)) m.

(** [map.keys().next().value] *)
Definition first_key (m : list (string * maybe string)) : maybe string :=
  match m with
  | [] => undefined
  | (k, _) :: _ => val k
  end.

(** [storeSeedInMemory()] *)
Definition storeSeedInMemory (domain : string) (st : state) : state :=
  let m := map_set (domainSeeds st) domain (currentSeed st) in
  let m' :=
    if (100 <? length m)%nat then
      match first_key m with
      | val firstKey => map_delete m firstKey
      | _ => m
      end
    else m in
  {| currentSeed := currentSeed st; domainSeeds := m' |}.

(** [generateSeed()] *)
Definition generateSeed (domain fresh : string) (st : state)
  : string * state :=
  let st1 := {| currentSeed := val fresh; domainSeeds := domainSeeds st |} in
  (fresh, storeSeedInMemory domain st1).

(** [getSeed()], after the test of [this.currentSeed]: the seed kept for
    the domain, or a new one. *)
Definition retrieve_or_generate (domain fresh : string) (st : state)
  : string * state :=
  let kept := map_get (domainSeeds st) domain in
  match kept with
  | val s =>
      if truthy kept
      then (s, {| currentSeed := kept; domainSeeds := domainSeeds st |})
      else generateSeed domain fresh st
  | _ => generateSeed domain fresh st
  end.

(** [getSeed()] *)
Definition getSeed (domain fresh : string) (st : state) : string * state :=
  match currentSeed st with
  | val s =>
      if truthy (currentSeed st) then (s, st)
      else retrieve_or_generate domain fresh st
  | _ => retrieve_or_generate domain fresh st
  end.

(** [clearSeed()] *)
Definition clearSeed (domain : string) (st : state) : state :=
  {| currentSeed := null;
     domainSeeds := map_delete (domainSeeds st) domain |}.

(** [random(index)] as a call on the object: [getSeed()], then the hash. *)
Definition random_call (domain fresh : string) (index : Z) (st : state)
  : Q * state :=
  let '(seed, st') := getSeed domain fresh st in
  (random seed index, st').

(** The calls that touch the lifecycle state. *)
Inductive call : Type :=
| GenerateSeed (domain fresh : string)
| GetSeed (domain fresh : string)
| StoreSeedInMemory (domain : string)
| ClearSeed (domain : string)
| Random (domain fresh : string) (index : Z).

Definition step (st : state) (c : call) : state :=
  match c with
  | GenerateSeed d f => snd (generateSeed d f st)
  | GetSeed d f => snd (getSeed d f st)
  | StoreSeedInMemory d => storeSeedInMemory d st
  | ClearSeed d => clearSeed d st
  | Random d f i => snd (random_call d f i st)
  end.

Definition run (cs : list call) (st : state) : state :=
  fold_left step cs st.

(** A sequence of [random(index)] calls: the values returned, in call
    order, and the final state. *)
Fixpoint draws (domain fresh : string) (indices : list Z) (st : state)
  : list Q * state :=
  match indices with
  | [] => ([], st)
  | i :: rest =>
      let '(v, st1) := random_call domain fresh i st in
      let '(vs, st2) := draws domain fresh rest st1 in
      (v :: vs, st2)
  end.

End SeedManager.

(** ** SpoofingEngine *)

Module SpoofingEngine.

Import SeedManager.

(** An archetype of the catalog.  A weight table ([os], [hardware.cpu])
    is the list of its keys and values as [Object.keys] and
    [Object.values] enumerate them; [None] is a missing field. *)
Record Archetype : Type := {
  name : string;
  weight : option Q;
  platform : maybe string;
  os : option (list (string * Q));
  hardware_cpu : option (list (string * Q))
}.

Record OS : Type := {
  os_name : maybe string;
  os_platform : maybe string
}.

Record Hardware : Type := {
  cpu : maybe string;
  hardwareConcurrency : maybe Z
}.

Record Navigator : Type := {
  nav_platform : maybe string;
  nav_hardwareConcurrency : Z;
  nav_vendor : string
}.

(** The fields of the profile that the properties below read; the
    display, locale, fonts, userAgent, webgl, audio and battery blocks and
    the RAM and GPU choices are left out. *)
Record Profile : Type := {
  seed : string;
  archetype : string;
  profile_os : OS;
  hardware : Hardware;
  navigator : Navigator
}.

(** [a.weight || 0.1] *)
Definition weight_or_default (a : Archetype) : Q :=
  match weight a with
  | Some w => if Qeq_bool w 0 then (1 # 10)%Q else w
  | None => (1 # 10)%Q
  end.

(** [selectArchetype()] *)
Definition selectArchetype (seed : string) (profiles : list Archetype)
  : completion (maybe Archetype) :=
  let weights := map weight_or_default profiles in
  randomWeightedChoice seed profiles weights 0.

(** [Object.keys(t || {})] and [Object.values(t || {})] *)
Definition table_or_empty (t : option (list (string * Q)))
  : list (string * Q) :=
  match t with Some l => l | None => [] end.

(** [selectOS(archetype)] *)
Definition selectOS (seed : string) (a : Archetype) : completion OS :=
  let osOptions := map fst (table_or_empty (os a)) in
  let osWeights := map snd (table_or_empty (os a)) in
  bind (randomWeightedChoice seed osOptions osWeights 1)
       (fun osName =>
          Normal {| os_name := osName; os_platform := platform a |}).

(** The tests of the [if] chain of [getCoreCount], on the lowercased
    CPU name. *)
Definition tier_i9 (cpuLower : string) : bool :=
  includes cpuLower "i9" || includes cpuLower "ryzen 9"
  || includes cpuLower "threadripper".
Definition tier_i7 (cpuLower : string) : bool :=
  includes cpuLower "i7" || includes cpuLower "ryzen 7".
Definition tier_i5 (cpuLower : string) : bool :=
  includes cpuLower "i5" || includes cpuLower "ryzen 5".
Definition tier_i3 (cpuLower : string) : bool :=
  includes cpuLower "i3" || includes cpuLower "ryzen 3".
Definition tier_apple (cpuLower : string) : bool :=
  includes cpuLower "m1" || includes cpuLower "m2" || includes cpuLower "m3".
Definition tier_celeron (cpuLower : string) : bool :=
  includes cpuLower "celeron" || includes cpuLower "pentium".

(** [getCoreCount(cpu)] *)
Definition getCoreCount (seed : string) (cpu : maybe string)
  : completion (maybe Z) :=
  match cpu with
  | val c =>
      if String.eqb c "" then Normal (val 4)
      else
        let cpuLower := toLowerCase c in
        if tier_i9 cpuLower then randomChoice seed [16; 20; 24; 32] 10
        else if tier_i7 cpuLower then randomChoice seed [8; 12; 16] 11
        else if tier_i5 cpuLower then randomChoice seed [6; 8; 12] 12
        else if tier_i3 cpuLower then randomChoice seed [4; 6] 13
        else if tier_apple cpuLower then Normal (val 8)
        else if tier_celeron cpuLower then randomChoice seed [2; 4] 14
        else Normal (val 4)
  | _ => Normal (val 4)
  end.

(** [selectHardware(archetype)], the CPU part. *)
Definition selectHardware (seed : string) (a : Archetype)
  : completion Hardware :=
  match hardware_cpu a with
  | Some table =>
      let cpuOptions := map fst table in
      let cpuWeights := map snd table in
      bind (randomWeightedChoice seed cpuOptions cpuWeights 2)
           (fun c =>
              bind (getCoreCount seed c)
                   (fun n => Normal {| cpu := c; hardwareConcurrency := n |}))
  | None => Normal {| cpu := undefined; hardwareConcurrency := undefined |}
  end.

(** [getVendor(osName)] *)
Definition getVendor (osName : maybe string) : string :=
  match osName with
  | val n => if includes n "macOS" then "Apple Computer, Inc."
             else "Google Inc."
  | _ => "Google Inc."
  end.

(** [buildNavigatorProfile(profile)], the fields kept here. *)
Definition buildNavigatorProfile (o : OS) (hw : Hardware) : Navigator :=
  {| nav_platform := os_platform o;
     nav_hardwareConcurrency :=
       match hardwareConcurrency hw with
       | val n => if n =? 0 then 4 else n
       | _ => 4
       end;
     nav_vendor := getVendor (os_name o) |}.

(** [generateProfile()]: reading [archetype.name] of a [null] archetype
    (an empty catalog) throws. *)
Definition generateProfile (seed : string) (profiles : list Archetype)
  : completion Profile :=
  bind (selectArchetype seed profiles) (fun chosen =>
    match chosen with
    | val a =>
        bind (selectOS seed a) (fun o =>
        bind (selectHardware seed a) (fun hw =>
          Normal {| seed := seed;
                    archetype := name a;
                    profile_os := o;
                    hardware := hw;
                    navigator := buildNavigatorProfile o hw |}))
    | _ => Throw TypeError
    end).

(** [getDefaultProfiles()] *)
Definition getDefaultProfiles : list Archetype :=
  [ {| name := "Default Windows PC";
       weight := Some 1%Q;
       platform := val "Win32"%string;
       os := Some [("Windows 11"%string, 100%Q)];
       hardware_cpu := Some [("Intel Core i5"%string, 100%Q)] |} ].

End SpoofingEngine.

(** ** CanvasInterceptor *)

Module CanvasInterceptor.

Local Open Scope float_scope.

Definition noiseLevel : float := 0.002.

(** The body of the loop of [hashCode]:
    [hash = ((hash << 5) - hash) + char; hash = hash & hash]. *)
Definition hashCode_step (hash : Z) (c : ascii) : Z :=
  let h := (shl32 hash 5 - hash + charCode c)%Z in
  and32 h h.

Fixpoint hashCode_loop (str : string) (hash : Z) : Z :=
  match str with
  | EmptyString => hash
  | String c str' => hashCode_loop str' (hashCode_step hash c)
  end.

(** [hashCode(str)] *)
Definition hashCode (str : string) : Z := Z.abs (hashCode_loop str 0%Z).

(** An integer of magnitude below 2^53 as a Number. *)
Definition float_of_Z (z : Z) : float :=
  if (z <? 0)%Z then PrimFloat.opp (PrimFloat.of_uint63 (Uint63.of_Z (- z)))
  else PrimFloat.of_uint63 (Uint63.of_Z z).

(** [seededRandom(x, y, channel)]: [(hash % 1000) / 1000]. *)
Definition seededRandom (seed : string) (x y channel : Z) : float :=
  let hash :=
    hashCode (seed ++ "-" ++ number_to_string x ++ "-" ++ number_to_string y
              ++ "-" ++ number_to_string channel)%string in
  float_of_Z (Z.rem hash 1000) / 1000.

(** Typed arrays: reading outside gives [undefined], writing outside does
    nothing. *)
Definition ta_get {A : Type} (a : list A) (i : Z) : option A :=
  if (i <? 0)%Z then None else a !! Z.to_nat i.

Definition ta_set {A : Type} (a : list A) (i : Z) (v : A) : list A :=
  if (i <? 0)%Z then a else <[Z.to_nat i := v]> a.

(** An [ImageData] object: [width], [height] and the [Uint8ClampedArray]
    [data]. *)
Record ImageData : Type := {
  width : Z;
  height : Z;
  data : list byte
}.

(** [data[i]] as a Number: NaN for [undefined]. *)
Definition byte_to_float (b : byte) : float :=
  float_of_Z (Z.of_N (Byte.to_N b)).

Definition data_get (d : list byte) (i : Z) : float :=
  match ta_get d i with
  | Some b => byte_to_float b
  | None => PrimFloat.nan
  end.

Definition sobelX : list float := [-1; 0; 1; -2; 0; 2; -1; 0; 1].
Definition sobelY : list float := [-1; -2; -1; 0; 0; 0; 1; 2; 1].

Definition kernel_get (k : list float) (i : Z) : float :=
  match ta_get k i with
  | Some v => v
  | None => PrimFloat.nan
  end.

(** The luminance of the pixel at byte offset [idx]. *)
Definition gray (d : list byte) (idx : Z) : float :=
  data_get d idx * 0.299 + data_get d (idx + 1) * 0.587
  + data_get d (idx + 2) * 0.114.

(** One step of the two kernel loops at the pixel [(x, y)]:
    [(pixelX, pixelY)] after the cell [(kx, ky)]. *)
Definition sobel_cell (img : ImageData) (x y : Z) (ky kx : Z)
    (acc : float * float) : float * float :=
  let idx := (((y + ky) * width img + (x + kx)) * 4)%Z in
  let g := gray (data img) idx in
  let kernelIdx := ((ky + 1) * 3 + (kx + 1))%Z in
  (fst acc + g * kernel_get sobelX kernelIdx,
   snd acc + g * kernel_get sobelY kernelIdx).

Definition sobel (img : ImageData) (x y : Z) : float * float :=
  fold_left
    (fun acc ky =>
       fold_left (fun acc kx => sobel_cell img x y ky kx acc)
                 [-1; 0; 1]%Z acc)
    [-1; 0; 1]%Z (0, 0).

(** [Math.sqrt(pixelX * pixelX + pixelY * pixelY)] *)
Definition magnitude (img : ImageData) (x y : Z) : float :=
  let '(pixelX, pixelY) := sobel img x y in
  PrimFloat.sqrt (pixelX * pixelX + pixelY * pixelY).

(** [magnitude > 30] *)
Definition is_edge (img : ImageData) (x y : Z) : bool :=
  PrimFloat.ltb 30 (magnitude img x y).

(** The integers [lo], [lo + 1], ..., [hi - 1]: the values a
    [for (i = lo; i < hi; i++)] loop runs through. *)
Definition zrange (lo hi : Z) : list Z :=
  map (fun i => (lo + Z.of_nat i)%Z) (seq 0 (Z.to_nat (hi - lo))).

Section Engine.

(** The largest typed-array length the engine allocates. *)
Variable max_length : Z.

(** [new Uint8ClampedArray(n)]: zero-filled; a negative or too large
    length throws a RangeError. *)
Definition new_Uint8ClampedArray (n : Z) : completion (list Z) :=
  if ((n <? 0) || (max_length <? n))%Z then Throw RangeError
  else Normal (replicate (Z.to_nat n) 0%Z).

(** The body of the loops of [detectEdges] at [(x, y)]. *)
Definition mark_edge (img : ImageData) (y : Z) (edges : list Z) (x : Z)
  : list Z :=
  ta_set edges (y * width img + x)%Z (if is_edge img x y then 1 else 0)%Z.

Definition mark_row (img : ImageData) (edges : list Z) (y : Z) : list Z :=
  fold_left (mark_edge img y) (zrange 1 (width img - 1)) edges.

(** [detectEdges(imageData)] *)
Definition detectEdges (img : ImageData) : completion (list Z) :=
  bind (new_Uint8ClampedArray (width img * height img)%Z)
       (fun edges =>
          Normal (fold_left (mark_row img) (zrange 1 (height img - 1))
                            edges)).

(** [Math.min(255, v)] and [Math.max(0, v)]: NaN if [v] is. *)
Definition min255 (v : float) : float :=
  if PrimFloat.is_nan v then PrimFloat.nan
  else if PrimFloat.ltb v 255 then v else 255.

Definition max0 (v : float) : float :=
  if PrimFloat.is_nan v then PrimFloat.nan
  else if PrimFloat.ltb 0 v then v else 0.

(** [floor(c)] for a Number [c] between 0 and 255: the largest integer
    not above [c], found bit by bit with exact comparisons. *)
Definition floor_byte (c : float) : Z :=
  fold_left
    (fun k bit =>
       if PrimFloat.leb (float_of_Z (k + bit)) c then (k + bit)%Z else k)
    [128; 64; 32; 16; 8; 4; 2; 1]%Z 0%Z.

(** The conversion of a store into a [Uint8ClampedArray] (ToUint8Clamp):
    NaN gives 0, a value up to 0 gives 0, a value from 255 gives 255,
    and a value between is rounded to the nearest integer, a tie to the
    even one. *)
Definition ToUint8Clamp (v : float) : Z :=
  if PrimFloat.is_nan v then 0%Z
  else if PrimFloat.leb v 0 then 0%Z
  else if PrimFloat.leb 255 v then 255%Z
  else
    let f := floor_byte v in
    let h := float_of_Z f + 0.5 in
    if PrimFloat.ltb h v then (f + 1)%Z
    else if PrimFloat.ltb v h then f
    else if Z.even f then f else (f + 1)%Z.

Definition byte_of_Z (z : Z) : byte :=
  match Byte.of_N (Z.to_N z) with
  | Some b => b
  | None => Byte.x00
  end.

(** The body of the channel loop of [applyEdgeNoise]. *)
Definition noise_channel (seed : string) (x y pixelIdx : Z)
    (d : list byte) (channel : Z) : list byte :=
  let noise := (seededRandom seed x y channel - 0.5) * 255 * noiseLevel in
  let v := max0 (min255 (data_get d (pixelIdx + channel) + noise)) in
  ta_set d (pixelIdx + channel)%Z (byte_of_Z (ToUint8Clamp v)).

(** The body of the pixel loops of [applyEdgeNoise] at [(x, y)]. *)
Definition noise_pixel (seed : string) (w : Z) (edges : list Z) (y : Z)
    (d : list byte) (x : Z) : list byte :=
  let idx := (y * w + x)%Z in
  let pixelIdx := (idx * 4)%Z in
  match ta_get edges idx with
  | Some 1%Z => fold_left (noise_channel seed x y pixelIdx) [0; 1; 2]%Z d
  | _ => d
  end.

Definition noise_row (seed : string) (w : Z) (edges : list Z)
    (d : list byte) (y : Z) : list byte :=
  fold_left (noise_pixel seed w edges y) (zrange 0 w) d.

(** The pixel loops of [applyEdgeNoise]: the bytes of [imageData.data]
    after them. *)
Definition noise_loops (seed : string) (img : ImageData) (edges : list Z)
  : list byte :=
  fold_left (noise_row seed (width img) edges) (zrange 0 (height img))
            (data img).

(** What a call can change: the [ImageData] objects, by reference, and
    the lines written to the console. *)
Record world : Type := {
  objects : gmap nat ImageData;
  console : list string
}.

(** [applyEdgeNoise(imageData)].  [imageData] is a reference to an
    object of the world; the stores into [data] update that object in
    place, and the reference passed in is the one returned.  Neither
    this function nor [detectEdges] writes to the console. *)
Definition applyEdgeNoise (seed : string) (imageData : nat) (w : world)
  : completion nat * world :=
  match objects w !! imageData with
  | None => (Throw TypeError, w)
  | Some img =>
      match detectEdges img with
      | Throw e => (Throw e, w)
      | Normal edges =>
          let img' := {| width := width img; height := height img;
                         data := noise_loops seed img edges |} in
          (Normal imageData,
           {| objects := <[imageData := img']> (objects w);
              console := console w |})
      end
  end.

End Engine.

End CanvasInterceptor.

(** ** Reference definitions and sample inputs *)

Module Reference.

(** The 32-bit FNV-1a hash as the specification words it: start from the
    offset basis; for each character, xor it in and multiply by the
    prime, on unsigned 32-bit words. *)
Definition fnv1a_step (h : Z) (c : ascii) : Z :=
  (Z.lxor h (charCode c) * 16777619) mod 2 ^ 32.

Fixpoint fnv1a_loop (str : string) (h : Z) : Z :=
  match str with
  | EmptyString => h
  | String c str' => fnv1a_loop str' (fnv1a_step h c)
  end.

Definition fnv1a32 (str : string) : Z := fnv1a_loop str 2166136261.

(** Two seeds of 64 hex digits, as [generateSeed] builds them.  The key of
    [seed_a] and the index 12 hashes to [ffffffff]. *)
Definition seed_a : string :=
  "a1b2c3d4e5f60718293a4b5c6d7e8f90112233445566778899aabb0065162d7a".

Definition seed_b : string :=
  "a1b2c3d4e5f60718293a4b5c6d7e8f90112233445566778899aabbccddeeff21".


(** A catalog whose one archetype declares a Linux platform and offers
    two systems. *)
Definition dual_boot_catalog : list SpoofingEngine.Archetype :=
  [ {| SpoofingEngine.name := "Linux Workstation";
       SpoofingEngine.weight := Some 1%Q;
       SpoofingEngine.platform := val "Linux x86_64"%string;
       SpoofingEngine.os :=
         Some [("Ubuntu 22.04"%string, 60%Q); ("Windows 11"%string, 40%Q)];
       SpoofingEngine.hardware_cpu :=
         Some [("Intel Core i5"%string, 100%Q)] |} ].


(** The profile [generateProfile] builds from [seed_b] and the built-in
    catalog. *)
Definition default_profile_b : SpoofingEngine.Profile :=
  {| SpoofingEngine.seed := seed_b;
     SpoofingEngine.archetype := "Default Windows PC";
     SpoofingEngine.profile_os :=
       {| SpoofingEngine.os_name := val "Windows 11"%string;
          SpoofingEngine.os_platform := val "Win32"%string |};
     SpoofingEngine.hardware :=
       {| SpoofingEngine.cpu := val "Intel Core i5"%string;
          SpoofingEngine.hardwareConcurrency := val 8 |};
     SpoofingEngine.navigator :=
       {| SpoofingEngine.nav_platform := val "Win32"%string;
          SpoofingEngine.nav_hardwareConcurrency := 8;
          SpoofingEngine.nav_vendor := "Google Inc." |} |}.




(** A state that holds the seed [seed_b]. *)
Definition seeded_state : SeedManager.state :=
  {| SeedManager.currentSeed := val seed_b;
     SeedManager.domainSeeds := [("example.org"%string, val seed_b)] |}.

(** A state whose map is full: the 100 domains "0", ..., "99". *)
Definition full_state : SeedManager.state :=
  {| SeedManager.currentSeed := val seed_b;
     SeedManager.domainSeeds :=
       map (fun i => (number_to_string (Z.of_nat i), val seed_a))
           (seq 0 100) |}.

(** No string occurs twice. *)
Fixpoint distinct (l : list string) : bool :=
  match l with
  | [] => true
  | x :: l' => negb (existsb (String.eqb x) l') && distinct l'
  end.

(** What the lifecycle calls preserve: distinct keys, at most 100. *)
Definition lifecycle_invariant (st : SeedManager.state) : Prop :=
  NoDup (map fst (SeedManager.domainSeeds st))
  /\ (length (SeedManager.domainSeeds st) <= 100)%nat.

(** [P] holds of the [n] integers from [lo] on. *)
Fixpoint forall_from (n : nat) (lo : Z) (P : Z -> bool) : bool :=
  match n with
  | O => true
  | S n' => P lo && forall_from n' (lo + 1) P
  end.

(** The store of [noise_channel] for the byte [d] and the residue [m] of
    the hash gives [d] back. *)
Definition store_fixed (m d : Z) : bool :=
  CanvasInterceptor.ToUint8Clamp
    (CanvasInterceptor.max0
       (CanvasInterceptor.min255
          (CanvasInterceptor.float_of_Z d
           + (CanvasInterceptor.float_of_Z m / 1000 - 0.5) * 255
             * CanvasInterceptor.noiseLevel)%float))
  =? d.

(** The bound of ECMA-262 on an array length, 2^53 - 1. *)
Definition ecma_max_length : Z := 2 ^ 53 - 1.

Definition gray_pixel (v : Z) : list byte :=
  [CanvasInterceptor.byte_of_Z v; CanvasInterceptor.byte_of_Z v;
   CanvasInterceptor.byte_of_Z v; CanvasInterceptor.byte_of_Z 255].

(** A 3 x 3 image, black on the left and white on the right: its centre
    pixel is an edge. *)
Definition edge_image : CanvasInterceptor.ImageData :=
  {| CanvasInterceptor.width := 3;
     CanvasInterceptor.height := 3;
     CanvasInterceptor.data :=
       gray_pixel 0 ++ gray_pixel 0 ++ gray_pixel 255
       ++ gray_pixel 0 ++ gray_pixel 100 ++ gray_pixel 255
       ++ gray_pixel 0 ++ gray_pixel 0 ++ gray_pixel 255 |}.

(** The same bytes declared as 4 x 3: 48 bytes declared, 36 held. *)
Definition short_image : CanvasInterceptor.ImageData :=
  {| CanvasInterceptor.width := 4;
     CanvasInterceptor.height := 3;
     CanvasInterceptor.data := CanvasInterceptor.data edge_image |}.

(** A negative width: -4 bytes declared. *)
Definition negative_image : CanvasInterceptor.ImageData :=
  {| CanvasInterceptor.width := -1;
     CanvasInterceptor.height := 1;
     CanvasInterceptor.data := [] |}.

Definition world_of (img : CanvasInterceptor.ImageData)
  : CanvasInterceptor.world :=
  {| CanvasInterceptor.objects := {[ 0%nat := img ]};
     CanvasInterceptor.console := [] |}.

(** Every 1 of the edge map stands at an interior pixel whose gradient
    magnitude exceeds 30. *)
Definition marks_edges_only (img : CanvasInterceptor.ImageData)
    (edges : list Z) : Prop :=
  forall p : nat, edges !! p = Some 1 ->
    exists x y,
      1 <= x < CanvasInterceptor.width img - 1
      /\ 1 <= y < CanvasInterceptor.height img - 1
      /\ Z.of_nat p = y * CanvasInterceptor.width img + x
      /\ CanvasInterceptor.is_edge img x y = true.

(** The bytes [d] differ from [d0] at most in the three colour bytes of
    pixels that the edge map marks. *)
Definition changed_at_edges (w h : Z) (edges : list Z) (d0 d : list byte)
  : Prop :=
  length d = length d0
  /\ forall k : nat, d !! k <> d0 !! k ->
       exists x y c,
         0 <= x < w /\ 0 <= y < h /\ 0 <= c < 3
         /\ Z.of_nat k = (y * w + x) * 4 + c
         /\ CanvasInterceptor.ta_get edges (y * w + x) = Some 1.

End Reference.

(** ** SeedManager: shuffle *)

Module SeedManagerShuffle.

Import SeedManager.

(** [a[i]] for an array of values: [undefined] outside the array. *)
Definition elem {A : Type} (a : list (maybe A)) (i : Z) : maybe A :=
  match array_get a i with
  | val v => v
  | _ => undefined
  end.

(** [a[i] = v] on an array: inside, the element is replaced; at or past the
    end the array grows up to [i], the gap reading [undefined]; a negative
    [i] names a property and leaves the elements alone. *)
Definition store {A : Type} (a : list (maybe A)) (i : Z) (v : maybe A)
  : list (maybe A) :=
  if i <? 0 then a
  else if i <? Z.of_nat (length a) then <[Z.to_nat i := v]> a
  else a ++ replicate (Z.to_nat i - length a) undefined ++ [v].

(** The body of the loop of [shuffle]:
    [j = randomInt(0, i, startIndex + i)], then the destructuring swap
    [[shuffled[i], shuffled[j]] = [shuffled[j], shuffled[i]]], which reads
    both elements and then stores at [i] and at [j]. *)
Definition shuffle_step {A : Type} (seed : string) (startIndex : Z)
    (acc : completion (list (maybe A))) (i : Z)
  : completion (list (maybe A)) :=
  bind acc (fun shuffled =>
    bind (randomInt seed 0 i (startIndex + i)) (fun j =>
      let xj := elem shuffled j in
      let xi := elem shuffled i in
      Normal (store (store shuffled i xj) j xi))).

(** [shuffle(array, startIndex)]: [i] runs from [length - 1] down to 1, on
    a copy of the array. *)
Definition shuffle {A : Type} (seed : string) (array : list (maybe A))
    (startIndex : Z) : completion (list (maybe A)) :=
  fold_left (shuffle_step seed startIndex)
            (rev (CanvasInterceptor.zrange 1 (Z.of_nat (length array))))
            (Normal array).

(** [getContextSeed(context)] and, with the window number as context,
    [getTimeWindowedSeed]: the hash of the seed and the context. *)
Definition getContextSeed (seed context : string) : string :=
  hash (seed ++ "-" ++ context)%string.

End SeedManagerShuffle.

(** ** SpoofingEngine: the other blocks of the profile *)

Module SpoofingEngineBlocks.

Import SeedManager SpoofingEngine.

Record GPU : Type := {
  gpu_vendor : string;
  gpu_model : string
}.

Definition vendors : list string := ["NVIDIA"; "AMD"; "Intel"; "Apple"]%string.

(** [parseGPU(gpuModel)]: the first vendor the name includes, "Intel" when
    it includes none; [gpuModel.includes] of [null] throws. *)
Definition parseGPU (gpuModel : maybe string) : completion GPU :=
  match gpuModel with
  | val m =>
      Normal {| gpu_vendor :=
                  match List.find (includes m) vendors with
                  | Some v => v
                  | None => "Intel"%string
                  end;
                gpu_model := m |}
  | _ => Throw TypeError
  end.

(** [selectHardware(archetype)], the GPU part: [hardware.gpu] stays
    [undefined] without a [hw.gpu] table. *)
Definition selectGPU (seed : string) (gpu : option (list (string * Q)))
  : completion (maybe GPU) :=
  match gpu with
  | Some table =>
      let gpuOptions := map fst table in
      let gpuWeights := map snd table in
      bind (randomWeightedChoice seed gpuOptions gpuWeights 4)
           (fun gpuModel =>
              bind (parseGPU gpuModel) (fun g => Normal (val g)))
  | None => Normal undefined
  end.

(** The [display] object of an archetype; [None] is a missing field. *)
Record DisplayConfig : Type := {
  resolutions : option (list string);
  cfg_colorDepth : option Z;
  cfg_pixelDepth : option Z;
  cfg_maxTouchPoints : option Z
}.

Record Display : Type := {
  resolution : maybe string;
  colorDepth : Z;
  pixelDepth : Z;
  maxTouchPoints : Z
}.

(** [v || d] for a numeric field: missing and 0 give [d]. *)
Definition or_default (v : option Z) (d : Z) : Z :=
  match v with
  | Some n => if n =? 0 then d else n
  | None => d
  end.

(** [selectDisplay(archetype)]; [display] is [archetype.display]. *)
Definition selectDisplay (seed : string) (display : option DisplayConfig)
  : completion Display :=
  let d := match display with
           | Some d => d
           | None => {| resolutions := None; cfg_colorDepth := None;
                        cfg_pixelDepth := None; cfg_maxTouchPoints := None |}
           end in
  bind (randomChoice seed
          (match resolutions d with
           | Some l => l
           | None => ["1920x1080"%string]
           end) 5)
       (fun r =>
          Normal {| resolution := r;
                    colorDepth := or_default (cfg_colorDepth d) 24;
                    pixelDepth := or_default (cfg_pixelDepth d) 24;
                    maxTouchPoints := or_default (cfg_maxTouchPoints d) 0 |}).

(** The string a replacement value becomes. *)
Definition replacement_text (v : maybe string) : string :=
  match v with
  | val s => s
  | undefined => "undefined"
  | null => "null"
  end.

Fixpoint string_drop (n : nat) (s : string) : string :=
  match n, s with
  | O, _ => s
  | S n', String _ s' => string_drop n' s'
  | S _, EmptyString => EmptyString
  end.

(** [s.replace(pat, rep)] for a string pattern: the first occurrence is
    replaced.  ([rep] holds no [$] here.) *)
Fixpoint replace_first (s pat rep : string) : string :=
  if String.prefix pat s then (rep ++ string_drop (String.length pat) s)%string
  else match s with
       | EmptyString => EmptyString
       | String c s' => String c (replace_first s' pat rep)
       end.

Definition chrome_versions : list string :=
  ["120.0.6099.130"; "121.0.6167.85"; "122.0.6261.69"; "123.0.6312.86"]%string.

(** [buildUserAgent(archetype)]; [userAgent] is
    [archetype.userAgent || navigator.userAgent]. *)
Definition buildUserAgent (seed : string) (userAgent : string)
  : completion string :=
  bind (randomChoice seed chrome_versions 6)
       (fun chromeVersion =>
          Normal (replace_first userAgent "{CHROME_VERSION}"
                    (replacement_text chromeVersion))).

Record WebGL : Type := {
  webgl_vendor : string;
  renderer : string
}.

(** [os.name?.includes(t)] *)
Definition name_includes (osName : maybe string) (t : string) : bool :=
  match osName with
  | val n => includes n t
  | _ => false
  end.

(** [`${gpu.model}`], with [gpu] being [profile.hardware.gpu || {}]. *)
Definition model_text (gpu : maybe GPU) : string :=
  match gpu with
  | val g => gpu_model g
  | _ => "undefined"%string
  end.

(** [gpu.vendor === v] *)
Definition vendor_is (gpu : maybe GPU) (v : string) : bool :=
  match gpu with
  | val g => String.eqb (gpu_vendor g) v
  | _ => false
  end.

(** [buildWebGLProfile(profile)], the vendor and the renderer. *)
Definition buildWebGLProfile (osName : maybe string) (gpu : maybe GPU)
  : WebGL :=
  if name_includes osName "Windows" then
    {| webgl_vendor := "Google Inc.";
       renderer :=
         ("ANGLE ("
          ++ (if vendor_is gpu "NVIDIA" then "NVIDIA, "
              else if vendor_is gpu "AMD" then "AMD, " else "Intel, ")
          ++ model_text gpu ++ " Direct3D11 vs_5_0 ps_5_0, D3D11)")%string |}
  else if name_includes osName "macOS" then
    {| webgl_vendor := "Apple Inc.";
       renderer :=
         ("ANGLE (Apple, ANGLE Metal Renderer: " ++ model_text gpu
          ++ ", Unspecified Version)")%string |}
  else
    {| webgl_vendor := "Google Inc.";
       renderer := ("Mesa " ++ model_text gpu)%string |}.

(** A time in seconds, or [Infinity]. *)
Inductive seconds : Type :=
| Finite (t : Z)
| Infinity.

Record Battery : Type := {
  charging : bool;
  chargingTime : Z;
  dischargingTime : seconds;
  level : Q
}.

(** [hasBattery] of [buildBatteryProfile]. *)
Definition hasBattery (archetypeName : string) : bool :=
  includes archetypeName "Laptop" || includes archetypeName "Tablet"
  || includes archetypeName "2-in-1".

Record Audio : Type := {
  sampleRate : maybe Z;
  maxChannelCount : maybe Z
}.

(** [buildAudioProfile(profile)]; the [state] field is the constant
    ['running']. *)
Definition buildAudioProfile (seed : string) : completion Audio :=
  bind (randomChoice seed [44100; 48000] 7) (fun rate =>
  bind (randomChoice seed [2; 6] 8) (fun channels =>
    Normal {| sampleRate := rate; maxChannelCount := channels |})).

(** [buildBatteryProfile(profile)]; [archetypeName] is [profile.archetype]. *)
Definition buildBatteryProfile (seed : string) (archetypeName : string)
  : completion Battery :=
  if hasBattery archetypeName then
    bind (randomInt seed 0 7200 10) (fun ct =>
    bind (randomInt seed 3600 28800 11) (fun dt =>
      Normal {| charging := negb (Qle_bool (random seed 9) (3 # 10));
                chargingTime := ct;
                dischargingTime := Finite dt;
                level := (random seed 12 * (8 # 10) + (2 # 10))%Q |}))
  else
    Normal {| charging := true;
              chargingTime := 0;
              dischargingTime := Infinity;
              level := 1%Q |}.

(** *** The engine object

    Its mutable fields: [profiles], [currentProfile] and the seed manager.
    The calls of [getSeed] that [generateProfile] makes, its own and the
    ones inside [random], return one seed (they see a seed in place after
    the first: a seed is 64 hex digits, never the empty string), so the
    profile is [generateProfile] of that seed. *)

Record engine : Type := {
  profiles : list Archetype;
  currentProfile : maybe Profile;
  seedManager : SeedManager.state
}.

Definition generateProfile_call (domain fresh : string) (e : engine)
  : completion Profile * engine :=
  let '(seed0, sm) := getSeed domain fresh (seedManager e) in
  (generateProfile seed0 (profiles e),
   {| profiles := profiles e; currentProfile := currentProfile e;
      seedManager := sm |}).

(** [getCurrentProfile()] *)
Definition getCurrentProfile (domain fresh : string) (e : engine)
  : completion Profile * engine :=
  match currentProfile e with
  | val p => (Normal p, e)
  | _ =>
      let '(r, e') := generateProfile_call domain fresh e in
      match r with
      | Normal p =>
          (Normal p,
           {| profiles := profiles e'; currentProfile := val p;
              seedManager := seedManager e' |})
      | Throw x => (Throw x, e')
      end
  end.

(** [regenerateProfile()]; [fresh] is the seed its call of [generateSeed]
    produces, [fresh'] the one a later call would. *)
Definition regenerateProfile (domain fresh fresh' : string) (e : engine)
  : completion Profile * engine :=
  let sm1 := clearSeed domain (seedManager e) in
  let sm2 := snd (generateSeed domain fresh sm1) in
  let e2 := {| profiles := profiles e; currentProfile := currentProfile e;
               seedManager := sm2 |} in
  let '(r, e') := generateProfile_call domain fresh' e2 in
  match r with
  | Normal p =>
      (Normal p,
       {| profiles := profiles e'; currentProfile := val p;
          seedManager := seedManager e' |})
  | Throw x => (Throw x, e')
  end.

End SpoofingEngineBlocks.

(** ** ScreenInterceptor *)

Module ScreenInterceptor.

(** [getTaskbarHeight(osName)] *)
Definition getTaskbarHeight (osName : maybe string) : Z :=
  match osName with
  | val n =>
      if String.eqb n "" then 40
      else if includes n "Windows" then 40
      else if includes n "macOS" then 23
      else if includes n "Linux" then 27
      else 40
  | _ => 40
  end.

(** [display.resolution || '1920x1080'] *)
Definition resolution_or_default (resolution : maybe string) : string :=
  match resolution with
  | val r => if String.eqb r "" then "1920x1080"%string else r
  | _ => "1920x1080"%string
  end.

(** [calculatePixelRatio(profile)] *)
Definition calculatePixelRatio (resolution osName : maybe string) : Z :=
  let r := resolution_or_default resolution in
  if includes r "2560" || includes r "3840" || includes r "2880" then 2
  else if SpoofingEngineBlocks.name_includes osName "macOS"
          && includes r "2880" then 2
  else 1.

End ScreenInterceptor.

(** ** SeedManager: the seeds [generateSeed] builds *)

Module SeedManagerSeeds.

(** The seed that [generateSeed] builds from the eight words that
    [crypto.getRandomValues] wrote:
    [Array.from(array).map(num => num.toString(16).padStart(8, '0')).join('')]. *)
Definition seed_of_words (array : list Z) : string :=
  fold_right append EmptyString
             (map (fun num => padStart0 8 (toString16 num)) array).

(** [generateFallbackSeed()]; [rnd i] is the Number that the call of
    [Math.random()] in the round [i] returns. *)
Definition generateFallbackSeed (rnd : nat -> Q) : string :=
  fold_left (fun seed i => (seed ++ toString16 (Qfloor (rnd i * 16)))%string)
            (seq 0 64) EmptyString.

End SeedManagerSeeds.

(** ** Reference definitions for the further properties *)

Module Reference2.

(** The sum of a list of weights. *)
Definition Qsum (l : list Q) : Q := fold_right Qplus 0%Q l.

(** The polynomial hash of a string, base 31, on unbounded integers. *)
Fixpoint poly31 (str : string) (h : Z) : Z :=
  match str with
  | EmptyString => h
  | String c str' => poly31 str' (31 * h + charCode c)
  end.

(** A hex digit, lowercase. *)
Definition is_hex_lower (c : ascii) : bool :=
  let n := N_of_ascii c in
  (((48 <=? n) && (n <=? 57)) || ((97 <=? n) && (n <=? 102)))%N.

Fixpoint all_chars (P : ascii -> bool) (s : string) : bool :=
  match s with
  | EmptyString => true
  | String c s' => P c && all_chars P s'
  end.

(** The flag [detectEdges] stores for the pixel [(x, y)]. *)
Definition edge_flag (img : CanvasInterceptor.ImageData) (x y : Z) : Z :=
  if (1 <=? x) && (x <? CanvasInterceptor.width img - 1)
     && (1 <=? y) && (y <? CanvasInterceptor.height img - 1)
     && CanvasInterceptor.is_edge img x y
  then 1 else 0.

(** The noise of [applyEdgeNoise] for the residue [m] of the hash is
    within 0.255 of zero, and [m / 1000] is in [0, 1). *)
Definition noise_small (m : Z) : bool :=
  let r := (CanvasInterceptor.float_of_Z m / 1000)%float in
  PrimFloat.leb 0 r && PrimFloat.ltb r 1
  && PrimFloat.leb
       (PrimFloat.abs ((r - 0.5) * 255 * CanvasInterceptor.noiseLevel)%float)
       0.255.

(** The engine as [init] leaves it with the built-in catalog, before a
    profile is generated; the seed manager has served one domain. *)
Definition sample_engine : SpoofingEngineBlocks.engine :=
  {| SpoofingEngineBlocks.profiles := SpoofingEngine.getDefaultProfiles;
     SpoofingEngineBlocks.currentProfile := null;
     SpoofingEngineBlocks.seedManager := Reference.seeded_state |}.

(** The element that a draw [r] selects from the array [[a; b]]. *)
Definition choice_of_two {A : Type} (r : Q) (a b : A) : maybe A :=
  if Qle_bool 1 r then undefined
  else if Qle_bool (1 # 2) r then val b else val a.

(** The words of a seed: its groups of eight hex digits, read back. *)
Fixpoint words_of_seed (k : nat) (s : string) : list Z :=
  match k with
  | O => []
  | S k' =>
      parseInt16 (String.substring 0 8 s)
      :: words_of_seed k' (SpoofingEngineBlocks.string_drop 8 s)
  end.

(** Sample values of [Math.random()]: the round [i] draws [i / 64]. *)
Definition sample_draws (i : nat) : Q := Z.of_nat i # 64.

End Reference2.

(** * Properties *)

Import SeedManager.

(** ** The hex rendering of the hash and its parse *)

Section Hex.

Lemma hex_value_digit (d : Z) :
  0 <= d < 16 -> hex_value (hex_digit d) = Some d.
Proof.
  intros Hd.
  assert (Hcases : d = 0 \/ d = 1 \/ d = 2 \/ d = 3 \/ d = 4 \/ d = 5 \/ d = 6
                   \/ d = 7 \/ d = 8 \/ d = 9 \/ d = 10 \/ d = 11 \/ d = 12
                   \/ d = 13 \/ d = 14 \/ d = 15) by lia.
  repeat (destruct Hcases as [-> | Hcases]; [reflexivity |]).
  subst d. reflexivity.
Qed.

Lemma parse_hex_digits (fuel : nat) :
  forall n acc, 0 <= n < 16 ^ Z.of_nat fuel ->
    parse_hex (hex_digits fuel n acc) 0 = parse_hex acc n.
Proof.
  induction fuel as [| fuel IH]; intros n acc Hn.
  - simpl in *. assert (n = 0) by lia. now subst.
  - rewrite Nat2Z.inj_succ, Z.pow_succ_r in Hn by lia.
    assert (Hdigit : 0 <= n mod 16 < 16) by (apply Z.mod_pos_bound; lia).
    assert (Hsplit : n = 16 * (n / 16) + n mod 16)
      by (apply Z.div_mod; lia).
    cbn [hex_digits].
    destruct (Z.eqb_spec (n / 16) 0) as [Hz | Hnz].
    + cbn [parse_hex]. rewrite hex_value_digit by assumption.
      f_equal. lia.
    + rewrite IH.
      * cbn [parse_hex]. rewrite hex_value_digit by assumption.
        f_equal. lia.
      * split; [apply Z.div_pos; lia |].
        apply Z.div_lt_upper_bound; lia.
Qed.

Lemma length_hex_digits (fuel : nat) :
  forall (k : nat) n acc, 0 <= n < 16 ^ Z.of_nat (S k) ->
    (String.length (hex_digits fuel n acc) <= S k + String.length acc)%nat.
Proof.
  induction fuel as [| fuel IH]; intros k n acc Hn; cbn [hex_digits].
  - lia.
  - destruct (Z.eqb_spec (n / 16) 0) as [Hz | Hnz].
    + cbn [String.length]. lia.
    + rewrite Nat2Z.inj_succ, Z.pow_succ_r in Hn by lia.
      destruct k as [| k].
      * exfalso. apply Hnz. apply Z.div_small. simpl in Hn. lia.
      * etransitivity.
        { apply (IH k). split; [apply Z.div_pos; lia |].
          apply Z.div_lt_upper_bound; lia. }
        cbn [String.length]. lia.
Qed.

Lemma parse_hex_zeros (k : nat) (s : string) :
  parse_hex (zeros k s) 0 = parse_hex s 0.
Proof. induction k as [| k IH]; [reflexivity | exact IH]. Qed.

Lemma length_zeros (k : nat) (s : string) :
  String.length (zeros k s) = (k + String.length s)%nat.
Proof. induction k as [| k IH]; cbn [zeros String.length]; lia. Qed.

Lemma substring_whole (s : string) :
  String.substring 0 (String.length s) s = s.
Proof. induction s as [| c s IH]; cbn; [reflexivity | now rewrite IH]. Qed.

Lemma fuel_enough (n : Z) :
  0 <= n -> n < 16 ^ Z.of_nat (S (Z.to_nat (Z.log2 n))).
Proof.
  intros Hn.
  destruct (Z.eq_dec n 0) as [-> | Hne]; [reflexivity |].
  assert (Hlog : n < 2 ^ Z.succ (Z.log2 n)) by (apply Z.log2_spec; lia).
  assert (H0 : 0 <= Z.log2 n) by apply Z.log2_nonneg.
  rewrite Nat2Z.inj_succ, Z2Nat.id by assumption.
  eapply Z.lt_le_trans; [exact Hlog |].
  change 16 with (2 ^ 4). rewrite <- Z.pow_mul_r by lia.
  apply Z.pow_le_mono_r; lia.
Qed.

(** Parsing the eight digits [hash] returns gives back the 32-bit hash. *)
Lemma hash_hex8 (str : string) :
  parseInt16 (substr0 8 (hash str)) = hash32 str.
Proof.
  assert (Hrange : 0 <= hash32 str < 2 ^ 32)
    by (apply Z.mod_pos_bound; reflexivity).
  unfold hash, parseInt16, substr0, padStart0, toString16.
  set (digits := hex_digits _ _ _).
  assert (Hlen : (String.length digits <= 8)%nat).
  { pose proof (length_hex_digits (S (Z.to_nat (Z.log2 (hash32 str)))) 7
                  (hash32 str) EmptyString) as H.
    cbn [String.length] in H. fold digits in H.
    rewrite Nat.add_0_r in H. apply H.
    change (16 ^ Z.of_nat 8) with (2 ^ 32). exact Hrange. }
  assert (H8 : String.length (zeros (8 - String.length digits) digits) = 8%nat)
    by (rewrite length_zeros; lia).
  rewrite <- H8 at 1. rewrite substring_whole, parse_hex_zeros.
  unfold digits. rewrite parse_hex_digits; [reflexivity |].
  split; [lia | apply fuel_enough; lia].
Qed.

End Hex.

(** ** The draw *)

Import Reference.

Lemma hash32_range (str : string) : 0 <= hash32 str < 2 ^ 32.
Proof. apply Z.mod_pos_bound. reflexivity. Qed.

Lemma random_eq (seed : string) (index : Z) :
  random seed index
  = (inject_Z (hash32 (key seed index)) / inject_Z 4294967295)%Q.
Proof. unfold random. now rewrite hash_hex8. Qed.

Lemma ratio_bounds (n : Z) :
  0 <= n <= 4294967295 ->
  (0 <= inject_Z n / inject_Z 4294967295 <= 1)%Q.
Proof.
  intros Hn. split.
  - apply Qle_shift_div_l; [reflexivity |].
    rewrite Qmult_0_l. change (inject_Z 0 <= inject_Z n)%Q.
    rewrite <- Zle_Qle. lia.
  - apply Qle_shift_div_r; [reflexivity |].
    rewrite Qmult_1_l. rewrite <- Zle_Qle. lia.
Qed.

Lemma ratio_lt_1 (n : Z) :
  (inject_Z n / inject_Z 4294967295 < 1)%Q <-> n < 4294967295.
Proof.
  split; intros H.
  - apply Z.lt_nge. intros Hge. apply (Qlt_not_le _ _ H).
    apply Qle_shift_div_l; [reflexivity |].
    rewrite Qmult_1_l. rewrite <- Zle_Qle. exact Hge.
  - apply Qlt_shift_div_r; [reflexivity |].
    rewrite Qmult_1_l. rewrite <- Zlt_Qlt. exact H.
Qed.

(** The draw lies between 0 and 1, both included. *)
Lemma random_bounds (seed : string) (index : Z) :
  (0 <= random seed index <= 1)%Q.
Proof.
  rewrite random_eq. apply ratio_bounds.
  pose proof (hash32_range (key seed index)). lia.
Qed.

(** It is below 1 exactly when the hash is not the largest 32-bit word. *)
Lemma random_lt_1_iff (seed : string) (index : Z) :
  (random seed index < 1)%Q <-> hash32 (key seed index) <> 4294967295.
Proof.
  rewrite random_eq, ratio_lt_1.
  pose proof (hash32_range (key seed index)). lia.
Qed.

(** *** [hash] is the unsigned FNV-1a hash *)

Lemma ToInt32_mod (x : Z) : ToInt32 x mod 2 ^ 32 = x mod 2 ^ 32.
Proof.
  unfold ToInt32.
  rewrite Zminus_mod, Zmod_mod, <- Zminus_mod. f_equal. lia.
Qed.

Lemma lxor_mod (a b : Z) :
  Z.lxor a b mod 2 ^ 32 = Z.lxor (a mod 2 ^ 32) (b mod 2 ^ 32).
Proof.
  rewrite <- !Z.land_ones by lia.
  apply Z.bits_inj'. intros n Hn.
  rewrite Z.lxor_spec, !Z.land_spec, Z.lxor_spec.
  destruct (Z.testbit a n), (Z.testbit b n), (Z.testbit (Z.ones 32) n);
    reflexivity.
Qed.

Lemma charCode_range (c : ascii) : 0 <= charCode c < 256.
Proof.
  unfold charCode. pose proof (N_ascii_bounded c). lia.
Qed.

Lemma hash_step_mod (h : Z) (c : ascii) :
  hash_step h c mod 2 ^ 32 = fnv1a_step (h mod 2 ^ 32) c.
Proof.
  unfold hash_step, imul, xor32, fnv1a_step, ToUint32, FNV_PRIME.
  rewrite !ToInt32_mod, lxor_mod, !ToInt32_mod.
  rewrite (Z.mod_small (charCode c)) by (pose proof (charCode_range c); lia).
  rewrite Z.mul_mod_idemp_r by lia. reflexivity.
Qed.

Lemma hash_loop_mod (str : string) :
  forall h, hash_loop str h mod 2 ^ 32 = fnv1a_loop str (h mod 2 ^ 32).
Proof.
  induction str as [| c str IH]; intros h; cbn [hash_loop fnv1a_loop].
  - reflexivity.
  - rewrite IH, hash_step_mod. reflexivity.
Qed.

(** The word [hash] renders is the unsigned 32-bit FNV-1a hash. *)
Lemma hash32_fnv1a (str : string) : hash32 str = fnv1a32 str.
Proof.
  unfold hash32, ToUint32, fnv1a32. rewrite hash_loop_mod. reflexivity.
Qed.

(** C1 (at the failing input).  For the seed [seed_a] and the index 12 the
    key hashes to [ffffffff], the largest 32-bit word; [random] divides it
    by [0xFFFFFFFF] and returns exactly 1, which is not below 1. *)
Theorem random_reaches_one :
  hash (key seed_a 12) = "ffffffff"%string
  /\ (random seed_a 12 == 1)%Q
  /\ ~ (random seed_a 12 < 1)%Q.
Proof.
  assert (Hh : hash32 (key seed_a 12) = 4294967295)
    by (vm_compute; reflexivity).
  split; [vm_compute; reflexivity |].
  split.
  - rewrite random_eq, Hh. reflexivity.
  - rewrite random_lt_1_iff. intros Hne. apply Hne. exact Hh.
Qed.

(** ** The derived operations *)

Lemma floor_scaled (r : Q) (n : Z) :
  (0 <= r)%Q -> (r < 1)%Q -> 0 < n -> 0 <= Qfloor (r * inject_Z n) < n.
Proof.
  intros H0 H1 Hn.
  assert (Hpos : (0 < inject_Z n)%Q)
    by (change (inject_Z 0 < inject_Z n)%Q; rewrite <- Zlt_Qlt; exact Hn).
  split.
  - apply Z.le_trans with (Qfloor (inject_Z 0)); [now rewrite Qfloor_Z |].
    apply Qfloor_resp_le. change (inject_Z 0) with 0%Q.
    apply Qmult_le_0_compat; [exact H0 | apply Qlt_le_weak; exact Hpos].
  - rewrite Zlt_Qlt.
    apply Qle_lt_trans with (r * inject_Z n)%Q; [apply Qfloor_le |].
    rewrite <- (Qmult_1_l (inject_Z n)) at 2.
    apply Qmult_lt_compat_r; assumption.
Qed.

Lemma array_get_in {A : Type} (array : list A) (idx : Z) :
  0 <= idx < Z.of_nat (length array) ->
  exists a, array_get array idx = val a /\ In a array.
Proof.
  intros Hidx. unfold array_get.
  destruct (Z.ltb_spec idx 0) as [Hneg | _]; [lia |].
  destruct (array !! Z.to_nat idx) as [a |] eqn:Hlook.
  - exists a. split; [reflexivity |].
    apply list_elem_of_In, list_elem_of_lookup. eauto.
  - apply lookup_ge_None in Hlook. lia.
Qed.

(** A draw below 1 makes [randomChoice] return an element of a non-empty
    array. *)
Lemma randomChoice_in {A : Type} (seed : string) (array : list A) (index : Z) :
  array <> [] -> (random seed index < 1)%Q ->
  exists a, randomChoice seed array index = Normal (val a) /\ In a array.
Proof.
  intros Hne Hlt.
  destruct array as [| a0 rest]; [contradiction |].
  unfold randomChoice, randomInt, bind.
  set (arr := a0 :: rest).
  destruct (array_get_in arr
              (Qfloor (random seed index
                       * inject_Z (Z.of_nat (length arr) - 1 - 0 + 1)) + 0))
    as (a & Hget & Hin).
  - replace (Z.of_nat (length arr) - 1 - 0 + 1) with (Z.of_nat (length arr))
      by lia.
    pose proof (floor_scaled (random seed index) (Z.of_nat (length arr))
                  (proj1 (random_bounds seed index)) Hlt) as Hfl.
    assert (0 < Z.of_nat (length arr)) by (subst arr; cbn [length]; lia).
    lia.
  - exists a. split; [now rewrite Hget | exact Hin].
Qed.

(** A draw equal to 1 indexes one past the end: [undefined]. *)
Lemma randomChoice_at_one {A : Type} (seed : string) (array : list A)
    (index : Z) :
  array <> [] -> (random seed index == 1)%Q ->
  randomChoice seed array index = Normal undefined.
Proof.
  intros Hne Heq.
  destruct array as [| a0 rest]; [contradiction |].
  unfold randomChoice, randomInt, bind.
  set (arr := a0 :: rest).
  replace (Z.of_nat (length arr) - 1 - 0 + 1) with (Z.of_nat (length arr))
    by lia.
  assert (Hfl : Qfloor (random seed index * inject_Z (Z.of_nat (length arr)))
                = Z.of_nat (length arr)).
  { rewrite Heq, Qmult_1_l. apply Qfloor_Z. }
  rewrite Hfl, Z.add_0_r. unfold array_get.
  destruct (Z.ltb_spec (Z.of_nat (length arr)) 0) as [Hneg | _]; [lia |].
  rewrite Nat2Z.id.
  now rewrite (proj2 (lookup_ge_None arr (length arr)) (Nat.le_refl _)).
Qed.

(** With [min <= max] and a draw below 1, [randomInt] stays between [min]
    and [max]. *)
Lemma randomInt_range (seed : string) (min max index : Z) :
  min <= max -> (random seed index < 1)%Q ->
  exists n, randomInt seed min max index = Normal n /\ min <= n <= max.
Proof.
  intros Hle Hlt. eexists. split; [reflexivity |].
  pose proof (floor_scaled (random seed index) (max - min + 1)
                (proj1 (random_bounds seed index)) Hlt).
  lia.
Qed.

Lemma weighted_loop_in {A : Type} (items : list A) :
  forall weights r it,
    weighted_loop items weights r = Some it -> In it items.
Proof.
  induction items as [| x items IH]; intros weights r it H;
    cbn [weighted_loop] in H.
  - discriminate.
  - match type of H with
    | (if ?c then _ else _) = _ => destruct c
    end.
    + injection H as <-. now left.
    + right. eapply IH. exact H.
Qed.

Lemma last_in {A : Type} (items : list A) (d : A) :
  items <> [] -> In (List.last items d) items.
Proof.
  induction items as [| x items IH]; intros Hne; [contradiction |].
  destruct items as [| y items]; [now left |].
  right. apply IH. discriminate.
Qed.

(** [randomWeightedChoice] returns an element of a non-empty list of
    items, whatever the weights and the draw. *)
Lemma randomWeightedChoice_in {A : Type} (seed : string) (items : list A)
    (weights : list Q) (index : Z) :
  items <> [] ->
  exists it,
    randomWeightedChoice seed items weights index = Normal (val it)
    /\ In it items.
Proof.
  intros Hne. destruct items as [| it0 rest]; [contradiction |].
  unfold randomWeightedChoice.
  destruct (weighted_loop _ _ _) as [it |] eqn:Hloop.
  - exists it. split; [reflexivity |]. eapply weighted_loop_in. exact Hloop.
  - eexists. split; [reflexivity |]. apply last_in. discriminate.
Qed.

Lemma randomWeightedChoice_inv {A : Type} (seed : string) (items : list A)
    (weights : list Q) (index : Z) (r : maybe A) :
  randomWeightedChoice seed items weights index = Normal r ->
  (items = [] /\ r = null) \/ (exists it, r = val it /\ In it items).
Proof.
  intros H. destruct items as [| it0 rest].
  - left. cbn in H. injection H as <-. now split.
  - right.
    destruct (randomWeightedChoice_in seed (it0 :: rest) weights index)
      as (it & Hit & Hin); [discriminate |].
    rewrite Hit in H. injection H as <-. eauto.
Qed.

(** None of the derived operations throws. *)
Lemma derived_never_throw {A : Type} (seed : string) (items : list A)
    (weights : list Q) (min max index : Z) :
  is_throw (randomInt seed min max index) = false
  /\ is_throw (randomChoice seed items index) = false
  /\ is_throw (randomWeightedChoice seed items weights index) = false.
Proof.
  split; [reflexivity |]. split.
  - destruct items; reflexivity.
  - destruct items as [| it0 rest]; [reflexivity |].
    unfold randomWeightedChoice. now destruct (weighted_loop _ _ _).
Qed.

(** C5 (as the code has it).  On an empty [items] list [randomChoice] and
    [randomWeightedChoice] return [null]; [randomInt] checks nothing, and
    for integers [min > max] of magnitude below 2^52 (where the binary64
    difference and sum of the code are exact) it returns an integer from
    [max + 1] to [min].  None of them throws or returns an error. *)
Theorem empty_or_reversed_arguments_return (seed : string) (weights : list Q)
    (min max index : Z) :
  randomChoice (A := Z) seed [] index = Normal null
  /\ randomWeightedChoice (A := string) seed [] weights index = Normal null
  /\ (max < min -> - 2 ^ 52 < max -> min < 2 ^ 52 ->
      exists n, randomInt seed min max index = Normal n /\ max + 1 <= n <= min).
Proof.
  split; [reflexivity |]. split; [reflexivity |].
  intros Hlt _ _. eexists. split; [reflexivity |].
  set (r := random seed index).
  destruct (random_bounds seed index) as [H0 H1]. fold r in H0, H1.
  set (k := max - min + 1).
  assert (Hk : k <= 0) by (subst k; lia).
  assert (Hk' : (inject_Z k <= 0)%Q)
    by (change (inject_Z k <= inject_Z 0)%Q; rewrite <- Zle_Qle; exact Hk).
  assert (Hlow : (inject_Z k <= r * inject_Z k)%Q) by nra.
  assert (Hhigh : (r * inject_Z k <= 0)%Q) by nra.
  apply Qfloor_resp_le in Hlow, Hhigh.
  rewrite Qfloor_Z in Hlow.
  change 0%Q with (inject_Z 0) in Hhigh. rewrite Qfloor_Z in Hhigh.
  subst k. lia.
Qed.

Lemma empty_or_reversed_arguments_return_witness :
  2 < 5 /\ - 2 ^ 52 < 2 /\ 5 < 2 ^ 52
  /\ exists n, randomInt seed_b 5 2 0 = Normal n /\ 2 + 1 <= n <= 5.
Proof.
  assert (Hlt : 2 < 5) by lia.
  assert (Hlo : - 2 ^ 52 < 2) by lia.
  assert (Hhi : 5 < 2 ^ 52) by lia.
  split; [exact Hlt |]. split; [exact Hlo |]. split; [exact Hhi |].
  exact (proj2 (proj2 (empty_or_reversed_arguments_return seed_b [] 5 2 0))
           Hlt Hlo Hhi).
Defined.

(** C5 (the claim fails).  With the empty list, and with [min = 5 > max = 2],
    the calls return [null], [null] and 3: ordinary values, no error. *)
Lemma empty_arguments_not_reported :
  randomChoice (A := Z) seed_a [] 0 = Normal null
  /\ randomWeightedChoice (A := string) seed_a [] [] 0 = Normal null
  /\ randomInt seed_a 5 2 0 = Normal 3
  /\ is_throw (randomChoice (A := Z) seed_a [] 0) = false
  /\ is_throw (randomWeightedChoice (A := string) seed_a [] [] 0) = false
  /\ is_throw (randomInt seed_a 5 2 0) = false.
Proof. repeat split; vm_compute; reflexivity. Qed.

(** ** The synthesizer *)

Import SpoofingEngine.

(** What [generateProfile] returns is built from one archetype of the
    catalog, the one [selectArchetype] picks. *)
Lemma generateProfile_inv (seed0 : string) (profiles : list Archetype)
    (p : Profile) :
  generateProfile seed0 profiles = Normal p ->
  exists a,
    In a profiles
    /\ selectArchetype seed0 profiles = Normal (val a)
    /\ selectOS seed0 a = Normal (profile_os p)
    /\ selectHardware seed0 a = Normal (hardware p)
    /\ archetype p = name a
    /\ navigator p = buildNavigatorProfile (profile_os p) (hardware p).
Proof.
  unfold generateProfile. intros H.
  destruct (selectArchetype seed0 profiles) as [chosen | e] eqn:Hsel;
    [| discriminate].
  cbn [bind] in H.
  destruct chosen as [| | a]; try discriminate.
  destruct (selectOS seed0 a) as [o | e] eqn:Hos; [| discriminate].
  destruct (selectHardware seed0 a) as [hw | e] eqn:Hhw; [| discriminate].
  cbn [bind] in H. injection H as <-.
  exists a. cbn. split; [| repeat split; assumption].
  unfold selectArchetype in Hsel.
  apply randomWeightedChoice_inv in Hsel.
  destruct Hsel as [[_ Hnull] | (it & Hit & Hin)]; [discriminate |].
  now injection Hit as ->.
Qed.

Lemma selectOS_inv (seed0 : string) (a : Archetype) (o : OS) :
  selectOS seed0 a = Normal o ->
  os_platform o = platform a
  /\ (os_name o = null
      \/ exists n, os_name o = val n
                   /\ In n (map fst (table_or_empty (os a)))).
Proof.
  unfold selectOS. intros H.
  destruct (randomWeightedChoice _ _ _ _) as [r | e] eqn:Hch; [| discriminate].
  cbn [bind] in H. injection H as <-. cbn. split; [reflexivity |].
  apply randomWeightedChoice_inv in Hch.
  destruct Hch as [[_ ->] | (it & -> & Hin)]; [now left | right; eauto].
Qed.

(** C6 (as the code has it).  The platform of a generated profile is the
    [platform] field of the archetype that [selectArchetype] picks from
    the catalog, copied as it is, in [os] and in [navigator]; the profile
    carries that archetype's name; the vendor is a function of [os.name]
    alone; [os.name] is [null] or a key of that archetype's table.  So
    [os.name] containing "Windows" gives the platform "Win32" in every
    catalog whose archetypes that offer such a name declare that platform. *)
Theorem platform_copied_from_archetype (seed0 : string)
    (profiles : list Archetype) (p : Profile) :
  generateProfile seed0 profiles = Normal p ->
  (exists a,
     In a profiles
     /\ selectArchetype seed0 profiles = Normal (val a)
     /\ archetype p = name a
     /\ os_platform (profile_os p) = platform a
     /\ nav_platform (navigator p) = platform a
     /\ (os_name (profile_os p) = null
         \/ exists n, os_name (profile_os p) = val n
                      /\ In n (map fst (table_or_empty (os a)))))
  /\ nav_vendor (navigator p) = getVendor (os_name (profile_os p))
  /\ ((forall a n, In a profiles ->
         In n (map fst (table_or_empty (os a))) ->
         includes n "Windows" = true -> platform a = val "Win32"%string) ->
      forall n, os_name (profile_os p) = val n ->
        includes n "Windows" = true ->
        os_platform (profile_os p) = val "Win32"%string).
Proof.
  intros H.
  destruct (generateProfile_inv _ _ _ H)
    as (a & Hin & Hsel & Hos & _ & Hname & Hnav).
  destruct (selectOS_inv _ _ _ Hos) as [Hplat Hkeys].
  split; [| split].
  - exists a. rewrite Hnav. cbn. auto 6.
  - rewrite Hnav. reflexivity.
  - intros Hcat n Hn Hwin. rewrite Hplat.
    destruct Hkeys as [Hnull | (n' & Hn' & Hin')]; [congruence |].
    apply (Hcat a n); [exact Hin | | exact Hwin].
    rewrite Hn in Hn'. now injection Hn' as ->.
Qed.

Lemma platform_copied_from_archetype_witness :
  generateProfile seed_b getDefaultProfiles = Normal default_profile_b
  /\ nav_vendor (navigator default_profile_b)
     = getVendor (os_name (profile_os default_profile_b)).
Proof.
  assert (H : generateProfile seed_b getDefaultProfiles
              = Normal default_profile_b) by (vm_compute; reflexivity).
  split; [exact H |].
  apply (platform_copied_from_archetype seed_b getDefaultProfiles
           default_profile_b H).
Defined.

(** C6 (the claim fails).  From [seed_b] and a catalog whose archetype
    declares the platform "Linux x86_64" and offers "Windows 11", the
    profile has an [os.name] containing "Windows" and a platform that is not
    "Win32". *)
Lemma windows_name_without_win32 :
  exists p,
    generateProfile seed_b dual_boot_catalog = Normal p
    /\ os_name (profile_os p) = val "Windows 11"%string
    /\ includes "Windows 11" "Windows" = true
    /\ os_platform (profile_os p) = val "Linux x86_64"%string
    /\ os_platform (profile_os p) <> val "Win32"%string.
Proof.
  eexists. split; [vm_compute; reflexivity |].
  cbn. repeat split; try reflexivity. discriminate.
Qed.


(** The branch of [getCoreCount] for a name of the i5 tier and of no tier
    tested before it. *)
Lemma getCoreCount_i5 (seed0 c : string) :
  tier_i9 (toLowerCase c) = false -> tier_i7 (toLowerCase c) = false ->
  tier_i5 (toLowerCase c) = true ->
  getCoreCount seed0 (val c) = randomChoice seed0 [6; 8; 12] 12.
Proof.
  intros H9 H7 H5. unfold getCoreCount.
  destruct (String.eqb_spec c "") as [-> | _]; [discriminate H5 |].
  cbv zeta. now rewrite H9, H7, H5.
Qed.

Lemma i5_choice (seed0 : string) :
  (random seed0 12 < 1)%Q ->
  exists n, randomChoice seed0 [6; 8; 12] 12 = Normal (val n)
            /\ In (val n) [val 6; val 8; val 12].
Proof.
  intros Hlt.
  destruct (randomChoice_in seed0 [6; 8; 12] 12) as (n & Hn & Hin);
    [discriminate | exact Hlt |].
  exists n. split; [exact Hn |].
  cbn in Hin. cbn. intuition (subst; auto).
Qed.



Lemma weighted_single {A : Type} (seed0 : string) (x : A) (weights : list Q)
    (index : Z) :
  randomWeightedChoice seed0 [x] weights index = Normal (val x).
Proof.
  unfold randomWeightedChoice. cbn [weighted_loop List.last].
  match goal with |- context [if ?c then _ else _] => destruct c end;
    reflexivity.
Qed.

(** The scenario of the specification: from the built-in catalog, under
    every seed whose draw at index 12 is below 1, the CPU is "Intel Core
    i5", the core count is 6, 8 or 12 and the platform is "Win32". *)
Lemma default_catalog_profile (seed0 : string) :
  (random seed0 12 < 1)%Q ->
  exists p,
    generateProfile seed0 getDefaultProfiles = Normal p
    /\ cpu (hardware p) = val "Intel Core i5"%string
    /\ In (hardwareConcurrency (hardware p)) [val 6; val 8; val 12]
    /\ os_platform (profile_os p) = val "Win32"%string.
Proof.
  intros Hlt.
  destruct (i5_choice seed0 Hlt) as (n & Hn & Hmem).
  unfold generateProfile, selectArchetype, getDefaultProfiles.
  cbn [map]. rewrite weighted_single. cbn [bind].
  unfold selectOS, selectHardware.
  cbn [os hardware_cpu platform name table_or_empty map fst snd].
  rewrite !weighted_single. cbn [bind].
  rewrite (getCoreCount_i5 seed0 "Intel Core i5")
    by (vm_compute; reflexivity).
  rewrite Hn. cbn [bind].
  eexists. split; [reflexivity |]. cbn. auto.
Qed.









(** ** The seed lifecycle *)

Lemma getSeed_stable (domain fresh s : string) (st : state) :
  currentSeed st = val s -> s <> ""%string ->
  getSeed domain fresh st = (s, st).
Proof.
  intros Hcur Hne. unfold getSeed. rewrite Hcur. cbn [truthy].
  destruct (String.eqb_spec s "") as [-> | _]; [contradiction | reflexivity].
Qed.

Lemma random_call_stable (domain fresh s : string) (index : Z) (st : state) :
  currentSeed st = val s -> s <> ""%string ->
  random_call domain fresh index st = (random s index, st).
Proof.
  intros Hcur Hne. unfold random_call.
  now rewrite (getSeed_stable domain fresh s st Hcur Hne).
Qed.

(** With a seed in place, a sequence of [random] calls returns the value of
    each index and leaves the state as it was. *)
Lemma draws_stable (domain fresh s : string) (st : state) :
  currentSeed st = val s -> s <> ""%string ->
  forall indices,
    draws domain fresh indices st = (map (random s) indices, st).
Proof.
  intros Hcur Hne indices.
  induction indices as [| i rest IH]; cbn [draws map]; [reflexivity |].
  rewrite (random_call_stable domain fresh s i st Hcur Hne), IH.
  reflexivity.
Qed.

(** [getSeed] leaves a seed in place, the one it returns. *)
Lemma getSeed_sets (domain fresh : string) (st : state) :
  fresh <> ""%string ->
  currentSeed (snd (getSeed domain fresh st))
  = val (fst (getSeed domain fresh st))
  /\ fst (getSeed domain fresh st) <> ""%string.
Proof.
  intros Hfresh.
  assert (Hgen : currentSeed (snd (generateSeed domain fresh st))
                 = val (fst (generateSeed domain fresh st))
                 /\ fst (generateSeed domain fresh st) <> ""%string)
    by (split; [reflexivity | exact Hfresh]).
  assert (Hr : currentSeed (snd (retrieve_or_generate domain fresh st))
               = val (fst (retrieve_or_generate domain fresh st))
               /\ fst (retrieve_or_generate domain fresh st) <> ""%string).
  { unfold retrieve_or_generate.
    destruct (map_get (domainSeeds st) domain) as [| | s]; try exact Hgen.
    cbn [truthy]. destruct (String.eqb_spec s "") as [-> | Hs];
      cbn [negb]; [exact Hgen |].
    split; [reflexivity | exact Hs]. }
  unfold getSeed. destruct (currentSeed st) as [| | s] eqn:Hcur; try exact Hr.
  cbn [truthy]. destruct (String.eqb_spec s "") as [-> | Hs];
    cbn [negb]; [exact Hr |].
  split; [exact Hcur | exact Hs].
Qed.

(** Also from a state without a seed, all the [random] calls of a run
    draw from one seed: the one the first call finds or creates. *)
Lemma draws_single_seed (domain fresh : string) (st : state)
    (indices : list Z) :
  fresh <> ""%string ->
  exists s, fst (draws domain fresh indices st) = map (random s) indices.
Proof.
  intros Hfresh. destruct indices as [| i rest].
  - exists fresh. reflexivity.
  - destruct (getSeed_sets domain fresh st Hfresh) as [Hcur Hne].
    exists (fst (getSeed domain fresh st)).
    cbn [draws]. unfold random_call.
    destruct (getSeed domain fresh st) as [s st1]. cbn [fst snd] in *.
    rewrite (draws_stable domain fresh s st1 Hcur Hne rest).
    reflexivity.
Qed.

(** C7.  For a seed [s] held by the seed manager, in two runs (two states,
    two domains, two sequences of [random] calls in any order and with any
    repetitions), a call with index [i] returns the same value in both,
    [random s i], wherever it stands in its sequence; and the calls leave
    the state unchanged. *)
Theorem draw_two_runs_equal (s : string) (st1 st2 : state)
    (domain1 fresh1 domain2 fresh2 : string) (calls1 calls2 : list Z)
    (n1 n2 : nat) (i : Z) :
  s <> ""%string ->
  currentSeed st1 = val s -> currentSeed st2 = val s ->
  calls1 !! n1 = Some i -> calls2 !! n2 = Some i ->
  fst (draws domain1 fresh1 calls1 st1) !! n1 = Some (random s i)
  /\ fst (draws domain1 fresh1 calls1 st1) !! n1
     = fst (draws domain2 fresh2 calls2 st2) !! n2
  /\ snd (draws domain1 fresh1 calls1 st1) = st1
  /\ snd (draws domain2 fresh2 calls2 st2) = st2.
Proof.
  intros Hne H1 H2 Hc1 Hc2.
  rewrite (draws_stable domain1 fresh1 s st1 H1 Hne calls1).
  rewrite (draws_stable domain2 fresh2 s st2 H2 Hne calls2).
  cbn [fst snd].
  assert (Hl : forall (l : list Z) n, l !! n = Some i ->
                 map (random s) l !! n = Some (random s i)).
  { intros l n Hn. change (map (random s) l) with (random s <$> l).
    now rewrite list_lookup_fmap, Hn. }
  rewrite (Hl _ _ Hc1), (Hl _ _ Hc2). auto.
Qed.

Lemma draw_two_runs_equal_witness :
  seed_b <> ""%string
  /\ fst (draws "example.org" seed_a [1; 5; 1] seeded_state) !! 1%nat
     = fst (draws "example.net" seed_a [5; 1] seeded_state) !! 0%nat.
Proof.
  assert (Hne : seed_b <> ""%string) by discriminate.
  split; [exact Hne |].
  apply (draw_two_runs_equal seed_b seeded_state seeded_state
           "example.org" seed_a "example.net" seed_a [1; 5; 1] [5; 1]
           1%nat 0%nat 5 Hne);
    reflexivity.
Defined.

(** *** The bound on the domain map *)

Lemma map_has_keys (m : list (string * maybe string)) (k : string) :
  map_has m k = true <-> k ∈ map fst m.
Proof.
  unfold map_has. rewrite existsb_exists, list_elem_of_In, in_map_iff.
  split.
  - intros (p & Hin & Heq). exists p. apply String.eqb_eq in Heq. auto.
  - intros (p & Heq & Hin). exists p. split; [exact Hin |].
    now apply String.eqb_eq.
Qed.

Lemma map_set_new (m : list (string * maybe string)) (k : string)
    (v : maybe string) :
  map_has m k = false -> map_set m k v = m ++ [(k, v)].
Proof.
  induction m as [| [k' v'] m IH]; intros Hhas; [reflexivity |].
  cbn in Hhas. cbn [map_set].
  destruct (String.eqb k' k); [discriminate |].
  cbn in Hhas. cbn. f_equal. apply IH. exact Hhas.
Qed.

Lemma keys_map_set (m : list (string * maybe string)) (k : string)
    (v : maybe string) :
  map fst (map_set m k v)
  = if map_has m k then map fst m else map fst m ++ [k].
Proof.
  induction m as [| [k' v'] m IH]; [reflexivity |].
  cbn [map_set]. unfold map_has. cbn [existsb fst].
  destruct (String.eqb k' k); cbn [orb map fst]; [reflexivity |].
  rewrite IH. unfold map_has. now destruct (existsb _ m).
Qed.

Lemma length_map_set (m : list (string * maybe string)) (k : string)
    (v : maybe string) :
  (length (map_set m k v) <= S (length m))%nat.
Proof.
  rewrite <- (List.length_map fst), keys_map_set.
  destruct (map_has m k); rewrite ?length_app, List.length_map; cbn; lia.
Qed.

Lemma NoDup_map_set (m : list (string * maybe string)) (k : string)
    (v : maybe string) :
  NoDup (map fst m) -> NoDup (map fst (map_set m k v)).
Proof.
  intros Hnd. rewrite keys_map_set.
  destruct (map_has m k) eqn:Hhas; [exact Hnd |].
  apply NoDup_app. split; [exact Hnd |]. split; [| apply NoDup_singleton].
  intros x Hx Hk. apply list_elem_of_singleton in Hk. subst x.
  apply map_has_keys in Hx. congruence.
Qed.

Lemma keys_map_delete (m : list (string * maybe string)) (k : string) :
  map fst (map_delete m k)
  = List.filter (fun k' => negb (String.eqb k' k)) (map fst m).
Proof.
  unfold map_delete.
  induction m as [| [k' v'] m IH]; [reflexivity |].
  cbn [List.filter map fst]. destruct (String.eqb k' k); cbn; now rewrite IH.
Qed.

Lemma NoDup_list_filter (f : string -> bool) (l : list string) :
  NoDup l -> NoDup (List.filter f l).
Proof.
  induction l as [| x l IH]; intros Hnd; [constructor |].
  apply NoDup_cons in Hnd. destruct Hnd as [Hx Hl].
  cbn [List.filter]. destruct (f x); [| now apply IH].
  apply NoDup_cons. split; [| now apply IH].
  rewrite list_elem_of_In, filter_In, <- list_elem_of_In. tauto.
Qed.

Lemma NoDup_map_delete (m : list (string * maybe string)) (k : string) :
  NoDup (map fst m) -> NoDup (map fst (map_delete m k)).
Proof. intros H. rewrite keys_map_delete. now apply NoDup_list_filter. Qed.

Lemma length_map_delete (m : list (string * maybe string)) (k : string) :
  (length (map_delete m k) <= length m)%nat.
Proof. apply filter_length_le. Qed.

Lemma map_delete_absent (m : list (string * maybe string)) (k : string) :
  k ∉ map fst m -> map_delete m k = m.
Proof.
  unfold map_delete.
  induction m as [| [k' v'] m IH]; intros Hk; [reflexivity |].
  cbn [map fst] in Hk. apply not_elem_of_cons in Hk. destruct Hk as [Hne Hk].
  cbn [List.filter fst].
  destruct (String.eqb_spec k' k) as [-> | _]; [contradiction |].
  cbn. f_equal. now apply IH.
Qed.

(** Deleting the first key of a map removes its first entry, and nothing
    else when no key is repeated. *)
Lemma map_delete_first (k : string) (v : maybe string)
    (m : list (string * maybe string)) :
  (length (map_delete ((k, v) :: m) k) <= length m)%nat
  /\ (NoDup (map fst ((k, v) :: m)) -> map_delete ((k, v) :: m) k = m).
Proof.
  assert (Hhead : map_delete ((k, v) :: m) k = map_delete m k).
  { unfold map_delete. cbn [List.filter fst]. now rewrite String.eqb_refl. }
  rewrite Hhead. split; [apply length_map_delete |].
  intros Hnd. cbn [map fst] in Hnd. apply NoDup_cons in Hnd.
  apply map_delete_absent. tauto.
Qed.

(** [storeSeedInMemory] keeps the keys distinct and the map within 100
    entries. *)
Lemma store_preserves (domain : string) (st : state) :
  NoDup (map fst (domainSeeds st)) ->
  (length (domainSeeds st) <= 100)%nat ->
  NoDup (map fst (domainSeeds (storeSeedInMemory domain st)))
  /\ (length (domainSeeds (storeSeedInMemory domain st)) <= 100)%nat.
Proof.
  intros Hnd Hlen. unfold storeSeedInMemory. cbn [domainSeeds].
  set (m := map_set (domainSeeds st) domain (currentSeed st)).
  assert (Hnd' : NoDup (map fst m)) by now apply NoDup_map_set.
  assert (Hlen' : (length m <= 101)%nat).
  { pose proof (length_map_set (domainSeeds st) domain (currentSeed st)).
    fold m in H. lia. }
  destruct (Nat.ltb_spec 100 (length m)) as [Hover | Hfit]; [| split; [easy | lia]].
  destruct m as [| [k v] m']; [cbn in Hover; lia |].
  cbn [first_key].
  destruct (map_delete_first k v m') as [Hl Heq].
  split; [now apply NoDup_map_delete |].
  cbn [length] in Hlen'. lia.
Qed.

Lemma generateSeed_preserves (domain fresh : string) (st : state) :
  lifecycle_invariant st ->
  lifecycle_invariant (snd (generateSeed domain fresh st)).
Proof.
  intros [Hnd Hlen]. unfold generateSeed. cbn [snd].
  now apply store_preserves.
Qed.

Lemma getSeed_preserves (domain fresh : string) (st : state) :
  lifecycle_invariant st ->
  lifecycle_invariant (snd (getSeed domain fresh st)).
Proof.
  intros Hinv.
  assert (Hr : lifecycle_invariant
                 (snd (retrieve_or_generate domain fresh st))).
  { unfold retrieve_or_generate.
    destruct (map_get (domainSeeds st) domain) as [| | s];
      try (now apply generateSeed_preserves).
    destruct (truthy (val s)); [exact Hinv |].
    now apply generateSeed_preserves. }
  unfold getSeed. destruct (currentSeed st) as [| | s]; try exact Hr.
  destruct (truthy (val s)); [exact Hinv | exact Hr].
Qed.

Lemma step_preserves (st : state) (c : call) :
  lifecycle_invariant st -> lifecycle_invariant (step st c).
Proof.
  intros Hinv. destruct c as [d f | d f | d | d | d f i]; cbn [step].
  - now apply generateSeed_preserves.
  - now apply getSeed_preserves.
  - destruct Hinv. now apply store_preserves.
  - destruct Hinv as [Hnd Hlen]. split; cbn [clearSeed domainSeeds].
    + now apply NoDup_map_delete.
    + pose proof (length_map_delete (domainSeeds st) d). lia.
  - unfold random_call.
    pose proof (getSeed_preserves d f st Hinv) as H.
    destruct (getSeed d f st) as [s st']. exact H.
Qed.

Lemma run_preserves (cs : list call) :
  forall st, lifecycle_invariant st -> lifecycle_invariant (run cs st).
Proof.
  unfold run. induction cs as [| c cs IH]; intros st Hinv; [exact Hinv |].
  cbn [fold_left]. apply IH. now apply step_preserves.
Qed.

(** Every state reached from the initial one holds at most 100 domains. *)
Lemma reachable_bounded (cs : list call) :
  (length (domainSeeds (run cs initial)) <= 100)%nat.
Proof.
  apply (run_preserves cs initial). split; [constructor | cbn; lia].
Qed.

(** C9.  From a map of at most 100 domains (with distinct keys, as a Map
    has), [storeSeedInMemory] leaves at most 100; storing a new domain into
    a map of exactly 100 drops the first entry, the oldest, and appends the
    new one; and every sequence of lifecycle calls leaves at most 100. *)
Theorem domain_map_bounded (domain : string) (st : state) (cs : list call) :
  NoDup (map fst (domainSeeds st)) ->
  (length (domainSeeds st) <= 100)%nat ->
  (length (domainSeeds (storeSeedInMemory domain st)) <= 100)%nat
  /\ (length (domainSeeds st) = 100%nat ->
      map_has (domainSeeds st) domain = false ->
      domainSeeds (storeSeedInMemory domain st)
      = tail (domainSeeds st) ++ [(domain, currentSeed st)])
  /\ (length (domainSeeds (run cs st)) <= 100)%nat.
Proof.
  intros Hnd Hlen. split; [| split].
  - now apply store_preserves.
  - intros Hfull Hnew. unfold storeSeedInMemory. cbn [domainSeeds].
    pose proof (NoDup_map_set _ domain (currentSeed st) Hnd) as Hnd'.
    rewrite (map_set_new _ _ _ Hnew) in *.
    destruct (domainSeeds st) as [| [k v] m'] eqn:Hm; [discriminate Hfull |].
    cbn [length] in Hfull. cbn [app tail].
    replace (100 <? length ((k, v) :: m' ++ [(domain, currentSeed st)]))%nat
      with true
      by (symmetry; apply Nat.ltb_lt; cbn [length];
          rewrite length_app; cbn [length]; lia).
    cbn [first_key].
    now apply (map_delete_first k v (m' ++ [(domain, currentSeed st)])).
  - now apply (run_preserves cs st).
Qed.

Lemma distinct_NoDup (l : list string) : distinct l = true -> NoDup l.
Proof.
  induction l as [| x l IH]; intros H; [constructor |].
  cbn [distinct] in H. apply andb_true_iff in H. destruct H as [Hx Hl].
  apply NoDup_cons. split; [| now apply IH].
  rewrite list_elem_of_In. intros Hin.
  apply negb_true_iff in Hx.
  assert (Hex : existsb (String.eqb x) l = true).
  { apply existsb_exists. exists x. split; [exact Hin |].
    apply String.eqb_refl. }
  congruence.
Defined.

Lemma domain_map_bounded_witness :
  NoDup (map fst (domainSeeds full_state))
  /\ length (domainSeeds full_state) = 100%nat
  /\ map_has (domainSeeds full_state) "example.org" = false
  /\ domainSeeds (storeSeedInMemory "example.org" full_state)
     = tail (domainSeeds full_state) ++ [("example.org"%string, val seed_b)].
Proof.
  assert (Hnd : NoDup (map fst (domainSeeds full_state)))
    by (apply distinct_NoDup; vm_compute; reflexivity).
  assert (Hlen : length (domainSeeds full_state) = 100%nat) by reflexivity.
  assert (Hnew : map_has (domainSeeds full_state) "example.org" = false)
    by (vm_compute; reflexivity).
  split; [exact Hnd |]. split; [exact Hlen |]. split; [exact Hnew |].
  apply (domain_map_bounded "example.org" full_state [] Hnd);
    [rewrite Hlen; apply Nat.le_refl | exact Hlen | exact Hnew].
Defined.

(** ** The canvas pass *)

Import CanvasInterceptor.

Lemma fold_left_invariant {A B : Type} (f : A -> B -> A) (P : A -> Prop)
    (l : list B) :
  (forall a b, In b l -> P a -> P (f a b)) ->
  forall a, P a -> P (fold_left f l a).
Proof.
  induction l as [| b l IH]; intros Hstep a Ha; [exact Ha |].
  cbn [fold_left]. apply IH.
  - intros a' b' Hin. apply Hstep. now right.
  - apply Hstep; [now left | exact Ha].
Qed.

Lemma In_zrange (lo hi i : Z) : In i (zrange lo hi) <-> lo <= i < hi.
Proof.
  unfold zrange. rewrite in_map_iff. split.
  - intros (n & <- & Hn). apply in_seq in Hn. lia.
  - intros Hi. exists (Z.to_nat (i - lo)). split; [lia |].
    apply in_seq. lia.
Qed.

Lemma length_ta_set {A : Type} (a : list A) (i : Z) (v : A) :
  length (ta_set a i v) = length a.
Proof.
  unfold ta_set. destruct (i <? 0); [reflexivity | apply length_insert].
Qed.

(** A store changes at most the element it addresses. *)
Lemma ta_set_changed {A : Type} (a : list A) (i : Z) (v : A) (k : nat) :
  ta_set a i v !! k <> a !! k -> Z.of_nat k = i.
Proof.
  unfold ta_set. destruct (Z.ltb_spec i 0) as [Hneg | Hpos]; [congruence |].
  intros Hdiff. destruct (Nat.eq_dec (Z.to_nat i) k) as [<- | Hne]; [lia |].
  now rewrite list_lookup_insert_ne in Hdiff.
Qed.

(** *** The edge map *)

Lemma mark_edge_sound (img : ImageData) (y x : Z) (edges : list Z) :
  1 <= x < width img - 1 -> 1 <= y < height img - 1 ->
  marks_edges_only img edges ->
  marks_edges_only img (mark_edge img y edges x).
Proof.
  intros Hx Hy Hinv p Hp. unfold mark_edge in Hp.
  destruct (decide (ta_set edges (y * width img + x)
                      (if is_edge img x y then 1 else 0) !! p
                    = edges !! p)) as [Heq | Hdiff].
  - apply Hinv. now rewrite <- Heq.
  - apply ta_set_changed in Hdiff.
    unfold ta_set in Hp.
    destruct (Z.ltb_spec (y * width img + x) 0) as [Hneg | _]; [lia |].
    destruct (is_edge img x y) eqn:Hedge.
    + exists x, y. auto.
    + exfalso.
      destruct (decide (p < length edges)%nat) as [Hlt | Hge].
      * rewrite <- Hdiff, Nat2Z.id in Hp.
        rewrite list_lookup_insert_eq in Hp by exact Hlt. discriminate Hp.
      * rewrite list_insert_ge in Hp by lia.
        apply lookup_lt_Some in Hp. lia.
Qed.

Lemma detectEdges_sound (max_length : Z) (img : ImageData) (edges : list Z) :
  detectEdges max_length img = Normal edges ->
  marks_edges_only img edges
  /\ Z.of_nat (length edges) = width img * height img.
Proof.
  unfold detectEdges, new_Uint8ClampedArray. intros H.
  destruct ((width img * height img <? 0)
            || (max_length <? width img * height img)) eqn:Hbad;
    [discriminate |].
  cbn [bind] in H. injection H as <-.
  apply orb_false_iff in Hbad. destruct Hbad as [Hneg _].
  apply Z.ltb_ge in Hneg.
  apply (fold_left_invariant (mark_row img)
           (fun e => marks_edges_only img e
                     /\ Z.of_nat (length e) = width img * height img)).
  - intros e y Hy [He Hlen]. apply In_zrange in Hy. unfold mark_row.
    apply (fold_left_invariant (mark_edge img y)
             (fun e => marks_edges_only img e
                       /\ Z.of_nat (length e) = width img * height img)).
    + intros e' x Hx [He' Hlen']. apply In_zrange in Hx. split.
      * now apply mark_edge_sound.
      * unfold mark_edge. now rewrite length_ta_set.
    + now split.
  - split.
    + intros p Hp. apply lookup_replicate in Hp. destruct Hp. discriminate.
    + rewrite length_replicate. lia.
Qed.

(** *** The noise loops change edge pixels only *)

Lemma byte_lookup_dec (a b : option byte) : a = b \/ a <> b.
Proof.
  destruct a as [x |], b as [y |];
    try (right; discriminate); [| now left].
  destruct (Byte.eqb x y) eqn:E.
  - left. f_equal. now apply Byte.byte_dec_bl.
  - right. intros [= ->].
    rewrite (Byte.byte_dec_lb (eq_refl y)) in E. discriminate E.
Qed.

Lemma noise_channel_frame (seed0 : string) (w h : Z) (edges : list Z)
    (d0 d : list byte) (x y c : Z) :
  0 <= x < w -> 0 <= y < h -> 0 <= c < 3 ->
  ta_get edges (y * w + x) = Some 1 ->
  changed_at_edges w h edges d0 d ->
  changed_at_edges w h edges d0
    (noise_channel seed0 x y ((y * w + x) * 4) d c).
Proof.
  intros Hx Hy Hc Hedge [Hlen Hinv]. unfold noise_channel. split.
  - now rewrite length_ta_set.
  - intros k Hk.
    match type of Hk with
    | ta_set d ?i ?v !! k <> _ =>
        destruct (byte_lookup_dec (ta_set d i v !! k) (d !! k))
          as [Heq | Hdiff]
    end.
    + apply Hinv. now rewrite <- Heq.
    + apply ta_set_changed in Hdiff. exists x, y, c. auto.
Qed.

Lemma noise_pixel_frame (seed0 : string) (w h : Z) (edges : list Z)
    (d0 d : list byte) (x y : Z) :
  0 <= x < w -> 0 <= y < h ->
  changed_at_edges w h edges d0 d ->
  changed_at_edges w h edges d0 (noise_pixel seed0 w edges y d x).
Proof.
  intros Hx Hy Hinv. unfold noise_pixel.
  destruct (ta_get edges (y * w + x)) as [[| [| |] |] |] eqn:Hedge;
    try exact Hinv.
  apply (fold_left_invariant (noise_channel seed0 x y ((y * w + x) * 4))
           (changed_at_edges w h edges d0)); [| exact Hinv].
  intros d' c Hc Hd'. apply noise_channel_frame; try assumption.
  cbn in Hc. lia.
Qed.

Lemma noise_loops_frame (seed0 : string) (img : ImageData) (edges : list Z) :
  changed_at_edges (width img) (height img) edges (data img)
    (noise_loops seed0 img edges).
Proof.
  unfold noise_loops.
  apply (fold_left_invariant (noise_row seed0 (width img) edges)
           (changed_at_edges (width img) (height img) edges (data img))).
  - intros d y Hy Hd. apply In_zrange in Hy. unfold noise_row.
    apply (fold_left_invariant (noise_pixel seed0 (width img) edges y)
             (changed_at_edges (width img) (height img) edges (data img)));
      [| exact Hd].
    intros d' x Hx Hd'. apply In_zrange in Hx.
    apply noise_pixel_frame; [lia | lia | exact Hd'].
  - split; [reflexivity | congruence].
Qed.

Lemma ta_get_nat {A : Type} (a : list A) (i : Z) (v : A) :
  ta_get a i = Some v -> 0 <= i /\ a !! Z.to_nat i = Some v.
Proof.
  unfold ta_get. destruct (Z.ltb_spec i 0); [discriminate | auto].
Qed.

(** C2.  After [applyEdgeNoise] on the object [imageData] (also when the
    call throws), the object has its width, its height and as many bytes
    as before, and a byte that differs from the one before is not an alpha
    byte and belongs to an interior pixel whose Sobel magnitude exceeds 30.
    So every alpha byte is unchanged, and so is every byte of a pixel
    [(x, y)] that is on the border or not an edge. *)
Theorem edge_noise_frame (max_length : Z) (seed0 : string) (imageData : nat)
    (w : world) (img : ImageData) :
  objects w !! imageData = Some img ->
  exists img',
    objects (snd (applyEdgeNoise max_length seed0 imageData w)) !! imageData
    = Some img'
    /\ width img' = width img /\ height img' = height img
    /\ length (data img') = length (data img)
    /\ (forall k : nat, data img' !! k <> data img !! k ->
          Z.of_nat k mod 4 <> 3
          /\ exists x y,
               1 <= x < width img - 1 /\ 1 <= y < height img - 1
               /\ Z.of_nat k / 4 = y * width img + x
               /\ is_edge img x y = true)
    /\ (forall k : nat, Z.of_nat k mod 4 = 3 ->
          data img' !! k = data img !! k)
    /\ (forall (k : nat) (x y : Z),
          0 <= x < width img -> Z.of_nat k / 4 = y * width img + x ->
          ~ (1 <= x < width img - 1 /\ 1 <= y < height img - 1
             /\ is_edge img x y = true) ->
          data img' !! k = data img !! k).
Proof.
  intros Hobj. unfold applyEdgeNoise. rewrite Hobj.
  assert (Hsame : exists img',
            Some img = Some img'
            /\ width img' = width img /\ height img' = height img
            /\ length (data img') = length (data img)
            /\ (forall k : nat, data img' !! k <> data img !! k ->
                  Z.of_nat k mod 4 <> 3
                  /\ exists x y,
                       1 <= x < width img - 1 /\ 1 <= y < height img - 1
                       /\ Z.of_nat k / 4 = y * width img + x
                       /\ is_edge img x y = true)
            /\ (forall k : nat, Z.of_nat k mod 4 = 3 ->
                  data img' !! k = data img !! k)
            /\ (forall (k : nat) (x y : Z),
                  0 <= x < width img -> Z.of_nat k / 4 = y * width img + x ->
                  ~ (1 <= x < width img - 1 /\ 1 <= y < height img - 1
                     /\ is_edge img x y = true) ->
                  data img' !! k = data img !! k)).
  { exists img. repeat split; try reflexivity; congruence. }
  destruct (detectEdges max_length img) as [edges | e] eqn:Hdet;
    cbn [snd]; [| rewrite Hobj; exact Hsame].
  clear Hsame. cbn [objects]. rewrite lookup_insert_eq.
  eexists. split; [reflexivity |]. cbn [width height data].
  destruct (detectEdges_sound _ _ _ Hdet) as [Hedges _].
  destruct (noise_loops_frame seed0 img edges) as [Hlen Hframe].
  assert (Hmain : forall k : nat,
            noise_loops seed0 img edges !! k <> data img !! k ->
            Z.of_nat k mod 4 <> 3
            /\ exists x y,
                 1 <= x < width img - 1 /\ 1 <= y < height img - 1
                 /\ Z.of_nat k / 4 = y * width img + x
                 /\ is_edge img x y = true).
  { intros k Hk.
    destruct (Hframe k Hk) as (x & y & c & Hx & Hy & Hc & Hkeq & Hedge).
    apply ta_get_nat in Hedge. destruct Hedge as [Hp Hedge].
    assert (Hdiv : Z.of_nat k / 4 = y * width img + x).
    { rewrite Hkeq. symmetry.
      apply (Z.div_unique _ 4 (y * width img + x) c); lia. }
    assert (Hmod : Z.of_nat k mod 4 = c).
    { rewrite Hkeq. symmetry.
      apply (Z.mod_unique _ 4 (y * width img + x) c); lia. }
    split; [lia |].
    destruct (Hedges _ Hedge) as (x' & y' & Hx' & Hy' & Hpeq & He).
    exists x', y'. rewrite Hdiv. repeat split; try lia; try exact He. }
  split; [reflexivity |]. split; [reflexivity |]. split; [exact Hlen |].
  split; [exact Hmain |]. split.
  - intros k Hk.
    destruct (byte_lookup_dec (noise_loops seed0 img edges !! k)
                (data img !! k)) as [Heq | Hdiff]; [exact Heq |].
    destruct (Hmain k Hdiff) as [Hne _]. contradiction.
  - intros k x y Hx Hkxy Hnot.
    destruct (byte_lookup_dec (noise_loops seed0 img edges !! k)
                (data img !! k)) as [Heq | Hdiff]; [exact Heq |].
    exfalso. destruct (Hmain k Hdiff) as [_ (x' & y' & Hx' & Hy' & Hk' & He)].
    assert (Hxy : y' * width img + x' = y * width img + x) by congruence.
    assert (Hyy : y' = y) by nia.
    assert (Hxx : x' = x) by nia.
    subst x' y'. apply Hnot. auto.
Qed.

Lemma edge_noise_frame_witness :
  objects (world_of edge_image) !! 0%nat = Some edge_image
  /\ exists img',
       objects (snd (applyEdgeNoise ecma_max_length seed_b 0%nat
                       (world_of edge_image))) !! 0%nat
       = Some img'
       /\ forall k : nat, Z.of_nat k mod 4 = 3 ->
            data img' !! k = data edge_image !! k.
Proof.
  assert (Hobj : objects (world_of edge_image) !! 0%nat = Some edge_image)
    by reflexivity.
  split; [exact Hobj |].
  destruct (edge_noise_frame ecma_max_length seed_b 0%nat
              (world_of edge_image) edge_image Hobj)
    as (img' & Himg & _ & _ & _ & _ & Halpha & _).
  exists img'. split; [exact Himg | exact Halpha].
Defined.

(** *** The stores of the noise loops write back the byte they read *)

Lemma forall_from_spec (n : nat) (P : Z -> bool) :
  forall lo, forall_from n lo P = true ->
    forall z, lo <= z < lo + Z.of_nat n -> P z = true.
Proof.
  induction n as [| n IH]; intros lo H z Hz; [lia |].
  cbn [forall_from] in H. apply andb_true_iff in H. destruct H as [Hlo Hrest].
  destruct (Z.eq_dec z lo) as [-> | Hne]; [exact Hlo |].
  apply (IH (lo + 1) Hrest). lia.
Qed.

(** For each of the 1000 residues of the hash and each of the 256 bytes,
    the rounded, clamped sum is the byte itself: the noise has magnitude at
    most 0.255. *)
Lemma store_fixed_all (m d : Z) :
  0 <= m < 1000 -> 0 <= d < 256 -> store_fixed m d = true.
Proof.
  intros Hm Hd.
  assert (Hall : forall_from 1000 0
                   (fun m => forall_from 256 0 (store_fixed m)) = true)
    by (vm_compute; reflexivity).
  apply (forall_from_spec 256 (store_fixed m) 0); [| lia].
  apply (forall_from_spec 1000 _ 0 Hall). lia.
Qed.

Lemma byte_of_Z_to_N (b : byte) : byte_of_Z (Z.of_N (Byte.to_N b)) = b.
Proof. unfold byte_of_Z. now rewrite N2Z.id, Byte.of_to_N. Qed.

Lemma ta_set_same {A : Type} (a : list A) (i : Z) (v : A) :
  ta_get a i = Some v -> ta_set a i v = a.
Proof.
  unfold ta_get, ta_set. destruct (i <? 0); [reflexivity |].
  apply list_insert_id.
Qed.

Lemma ta_set_outside {A : Type} (a : list A) (i : Z) (v : A) :
  ta_get a i = None -> ta_set a i v = a.
Proof.
  unfold ta_get, ta_set. destruct (i <? 0); [reflexivity |].
  intros H. apply list_insert_ge. now apply lookup_ge_None.
Qed.

Lemma noise_channel_same (seed0 : string) (x y pixelIdx : Z) (d : list byte)
    (channel : Z) :
  noise_channel seed0 x y pixelIdx d channel = d.
Proof.
  unfold noise_channel, data_get.
  destruct (ta_get d (pixelIdx + channel)) as [b |] eqn:Hget;
    [| now apply ta_set_outside].
  apply ta_set_same. rewrite Hget. f_equal.
  unfold seededRandom, byte_to_float.
  set (hash := hashCode _).
  assert (Hm : 0 <= Z.rem hash 1000 < 1000).
  { apply Z.rem_bound_pos; [apply Z.abs_nonneg | lia]. }
  assert (Hd : 0 <= Z.of_N (Byte.to_N b) < 256).
  { pose proof (Byte.to_N_bounded b). lia. }
  pose proof (store_fixed_all _ _ Hm Hd) as Hfix.
  apply Z.eqb_eq in Hfix. unfold store_fixed in Hfix.
  rewrite Hfix. symmetry. apply byte_of_Z_to_N.
Qed.

Lemma fold_left_same {A B : Type} (f : A -> B -> A) (l : list B) :
  (forall a b, f a b = a) -> forall a, fold_left f l a = a.
Proof.
  intros Hf. induction l as [| b l IH]; intros a; [reflexivity |].
  cbn [fold_left]. now rewrite Hf.
Qed.

(** The pixel loops leave every byte as it was. *)
Lemma noise_loops_same (seed0 : string) (img : ImageData) (edges : list Z) :
  noise_loops seed0 img edges = data img.
Proof.
  unfold noise_loops. apply fold_left_same. intros d y.
  unfold noise_row. apply fold_left_same. intros d' x.
  unfold noise_pixel.
  destruct (ta_get edges (y * width img + x)) as [[| [| |] |] |];
    try reflexivity.
  apply fold_left_same. intros d'' c. apply noise_channel_same.
Qed.

Lemma detectEdges_outcome (max_length : Z) (img : ImageData) :
  (0 <= width img * height img <= max_length ->
   exists edges, detectEdges max_length img = Normal edges)
  /\ (width img * height img < 0 \/ max_length < width img * height img ->
      detectEdges max_length img = Throw RangeError).
Proof.
  unfold detectEdges, new_Uint8ClampedArray. split; intros H.
  - replace ((width img * height img <? 0)
             || (max_length <? width img * height img)) with false
      by (symmetry; apply orb_false_iff; split; apply Z.ltb_ge; lia).
    cbn [bind]. eauto.
  - replace ((width img * height img <? 0)
             || (max_length <? width img * height img)) with true;
      [reflexivity |].
    symmetry. apply orb_true_iff.
    destruct H; [left | right]; apply Z.ltb_lt; lia.
Qed.

(** [applyEdgeNoise] leaves the world as it found it, and returns the
    reference it was given unless the edge map cannot be allocated. *)
Lemma applyEdgeNoise_world (max_length : Z) (seed0 : string)
    (imageData : nat) (w : world) (img : ImageData) :
  objects w !! imageData = Some img ->
  snd (applyEdgeNoise max_length seed0 imageData w) = w
  /\ (0 <= width img * height img <= max_length ->
      fst (applyEdgeNoise max_length seed0 imageData w) = Normal imageData)
  /\ (width img * height img < 0 \/ max_length < width img * height img ->
      fst (applyEdgeNoise max_length seed0 imageData w) = Throw RangeError).
Proof.
  intros Hobj. unfold applyEdgeNoise. rewrite Hobj.
  destruct (detectEdges_outcome max_length img) as [Hok Hbad].
  destruct (detectEdges max_length img) as [edges | e] eqn:Hdet; cbn [fst snd].
  - split; [| split; [reflexivity |]].
    + rewrite noise_loops_same.
      destruct w as [objs cons]. cbn [objects console] in *. f_equal.
      destruct img as [iw ih idata]. cbn [width height data].
      now apply insert_id.
    + intros H. specialize (Hbad H). discriminate Hbad.
  - split; [reflexivity | split].
    + intros H. destruct (Hok H) as [edges Hedges]. discriminate Hedges.
    + intros H. specialize (Hbad H). now injection Hbad as ->.
Qed.

(** C3 (as the code has it).  [applyEdgeNoise] makes no copy: when the edge
    map can be allocated it returns the reference it was given, whether or
    not a pixel qualifies for noise.  Its stores go to the caller's buffer,
    and each writes back the byte it read, so after the call the world holds
    the same objects with the same bytes. *)
Theorem edge_noise_same_reference (max_length : Z) (seed0 : string)
    (imageData : nat) (w : world) (img : ImageData) :
  objects w !! imageData = Some img ->
  0 <= width img * height img <= max_length ->
  fst (applyEdgeNoise max_length seed0 imageData w) = Normal imageData
  /\ snd (applyEdgeNoise max_length seed0 imageData w) = w
  /\ objects (snd (applyEdgeNoise max_length seed0 imageData w)) !! imageData
     = Some img.
Proof.
  intros Hobj Hdim.
  destruct (applyEdgeNoise_world max_length seed0 imageData w img Hobj)
    as (Hw & Hok & _).
  split; [exact (Hok Hdim) |]. split; [exact Hw |]. now rewrite Hw.
Qed.

Lemma edge_noise_same_reference_witness :
  objects (world_of edge_image) !! 0%nat = Some edge_image
  /\ 0 <= width edge_image * height edge_image <= ecma_max_length
  /\ fst (applyEdgeNoise ecma_max_length seed_b 0%nat (world_of edge_image))
     = Normal 0%nat.
Proof.
  assert (Hobj : objects (world_of edge_image) !! 0%nat = Some edge_image)
    by reflexivity.
  assert (Hdim : 0 <= width edge_image * height edge_image <= ecma_max_length)
    by (vm_compute; split; discriminate).
  split; [exact Hobj |]. split; [exact Hdim |].
  apply (edge_noise_same_reference ecma_max_length seed_b 0%nat
           (world_of edge_image) edge_image Hobj Hdim).
Defined.

(** C3 (the claim fails).  The centre pixel of [edge_image] is an edge, so
    a pixel qualifies for noise; yet the call returns the reference 0 it was
    given, and the world holds that one object and no copy. *)
Lemma edge_noise_returns_argument :
  is_edge edge_image 1 1 = true
  /\ detectEdges ecma_max_length edge_image
     = Normal [0; 0; 0; 0; 1; 0; 0; 0; 0]
  /\ fst (applyEdgeNoise ecma_max_length seed_b 0%nat (world_of edge_image))
     = Normal 0%nat
  /\ objects (snd (applyEdgeNoise ecma_max_length seed_b 0%nat
                     (world_of edge_image)))
     = {[ 0%nat := edge_image ]}.
Proof.
  assert (Hobj : objects (world_of edge_image) !! 0%nat = Some edge_image)
    by reflexivity.
  destruct (applyEdgeNoise_world ecma_max_length seed_b 0%nat
              (world_of edge_image) edge_image Hobj) as (Hw & Hok & _).
  split; [vm_compute; reflexivity |].
  split; [vm_compute; reflexivity |].
  split; [apply Hok; vm_compute; split; discriminate |].
  rewrite Hw. reflexivity.
Qed.

(** C4 (as the code has it).  For a buffer whose declared size differs
    from its byte length, [applyEdgeNoise] checks nothing and writes
    nothing to the console; the world is as before.  It returns the
    reference it was given when [width * height] is an array length the
    engine allocates, and throws a RangeError out of [detectEdges] when that
    product is negative or too large. *)
Theorem malformed_buffer_unreported (max_length : Z) (seed0 : string)
    (imageData : nat) (w : world) (img : ImageData) :
  objects w !! imageData = Some img ->
  width img * height img * 4 <> Z.of_nat (length (data img)) ->
  console (snd (applyEdgeNoise max_length seed0 imageData w)) = console w
  /\ snd (applyEdgeNoise max_length seed0 imageData w) = w
  /\ (0 <= width img * height img <= max_length ->
      fst (applyEdgeNoise max_length seed0 imageData w) = Normal imageData)
  /\ (width img * height img < 0 \/ max_length < width img * height img ->
      fst (applyEdgeNoise max_length seed0 imageData w) = Throw RangeError).
Proof.
  intros Hobj _.
  destruct (applyEdgeNoise_world max_length seed0 imageData w img Hobj)
    as (Hw & Hok & Hbad).
  rewrite Hw. auto.
Qed.

Lemma malformed_buffer_unreported_witness :
  objects (world_of short_image) !! 0%nat = Some short_image
  /\ width short_image * height short_image * 4
     <> Z.of_nat (length (data short_image))
  /\ snd (applyEdgeNoise ecma_max_length seed_b 0%nat (world_of short_image))
     = world_of short_image.
Proof.
  assert (Hobj : objects (world_of short_image) !! 0%nat = Some short_image)
    by reflexivity.
  assert (Hbad : width short_image * height short_image * 4
                 <> Z.of_nat (length (data short_image)))
    by (vm_compute; discriminate).
  split; [exact Hobj |]. split; [exact Hbad |].
  apply (malformed_buffer_unreported ecma_max_length seed_b 0%nat
           (world_of short_image) short_image Hobj Hbad).
Defined.

(** C4 (the claim fails).  [short_image] declares 48 bytes and holds 36:
    the call returns normally and the console stays empty, no diagnostic.
    [negative_image] declares a negative width: the call throws. *)
Lemma malformed_buffer_silent_or_throws :
  width short_image * height short_image * 4
  <> Z.of_nat (length (data short_image))
  /\ fst (applyEdgeNoise ecma_max_length seed_b 0%nat (world_of short_image))
     = Normal 0%nat
  /\ console (snd (applyEdgeNoise ecma_max_length seed_b 0%nat
                     (world_of short_image))) = []
  /\ width negative_image * height negative_image * 4
     <> Z.of_nat (length (data negative_image))
  /\ fst (applyEdgeNoise ecma_max_length seed_b 0%nat
            (world_of negative_image))
     = Throw RangeError.
Proof.
  assert (Hobj : objects (world_of short_image) !! 0%nat = Some short_image)
    by reflexivity.
  destruct (applyEdgeNoise_world ecma_max_length seed_b 0%nat
              (world_of short_image) short_image Hobj) as (Hw & Hok & _).
  split; [vm_compute; discriminate |].
  split; [apply Hok; vm_compute; split; discriminate |].
  split; [rewrite Hw; reflexivity |].
  split; [vm_compute; discriminate |].
  reflexivity.
Qed.

(** ** Test vectors *)

Example hash_empty : hash "" = "811c9dc5"%string.
Proof. reflexivity. Qed.

Example hash_a : hash "a" = "e40c292c"%string.
Proof. vm_compute. reflexivity. Qed.

Example hash_foobar : hash "foobar" = "bf9cf968"%string.
Proof. vm_compute. reflexivity. Qed.

Example clamp_rounding :
  map ToUint8Clamp [0.5; 1.5; 2.5; 254.5; 255; 300; -3; nan]%float
  = [0; 2; 2; 254; 255; 255; 0; 0].
Proof. vm_compute. reflexivity. Qed.

(** * Further properties *)

Import SeedManagerShuffle SpoofingEngineBlocks Reference2.

(** ** The hash and the derived operations *)

Lemma hex_digit_lower (d : Z) :
  0 <= d < 16 -> is_hex_lower (hex_digit d) = true.
Proof.
  intros Hd.
  assert (Hcases : d = 0 \/ d = 1 \/ d = 2 \/ d = 3 \/ d = 4 \/ d = 5 \/ d = 6
                   \/ d = 7 \/ d = 8 \/ d = 9 \/ d = 10 \/ d = 11 \/ d = 12
                   \/ d = 13 \/ d = 14 \/ d = 15) by lia.
  repeat (destruct Hcases as [-> | Hcases]; [reflexivity |]).
  subst d. reflexivity.
Qed.

Lemma hex_digits_lower (fuel : nat) :
  forall n acc, all_chars is_hex_lower acc = true ->
    all_chars is_hex_lower (hex_digits fuel n acc) = true.
Proof.
  induction fuel as [| fuel IH]; intros n acc Hacc; [exact Hacc |].
  cbn [hex_digits].
  assert (Hstep : all_chars is_hex_lower (String (hex_digit (n mod 16)) acc)
                  = true).
  { cbn [all_chars]. rewrite Hacc, hex_digit_lower; [reflexivity |].
    apply Z.mod_pos_bound. lia. }
  destruct (n / 16 =? 0); [exact Hstep | now apply IH].
Qed.

Lemma zeros_lower (k : nat) (s : string) :
  all_chars is_hex_lower s = true ->
  all_chars is_hex_lower (zeros k s) = true.
Proof. intros Hs. induction k as [| k IH]; [exact Hs | exact IH]. Qed.

Lemma hash_length (str : string) : String.length (hash str) = 8%nat.
Proof.
  unfold hash, padStart0, toString16.
  set (digits := hex_digits _ _ _).
  assert (Hlen : (String.length digits <= 8)%nat).
  { pose proof (length_hex_digits (S (Z.to_nat (Z.log2 (hash32 str)))) 7
                  (hash32 str) EmptyString) as H.
    cbn [String.length] in H. fold digits in H.
    rewrite Nat.add_0_r in H. apply H.
    change (16 ^ Z.of_nat 8) with (2 ^ 32). apply hash32_range. }
  rewrite length_zeros. lia.
Qed.

(** X1.  [hash] returns exactly eight characters, each a lowercase hex
    digit, for every input string; so do [getContextSeed] and the
    time-windowed seed it stands for. *)
Theorem hash_eight_hex_digits (str seed0 context : string) :
  String.length (hash str) = 8%nat
  /\ all_chars is_hex_lower (hash str) = true
  /\ String.length (getContextSeed seed0 context) = 8%nat
  /\ all_chars is_hex_lower (getContextSeed seed0 context) = true.
Proof.
  assert (Hall : forall s, all_chars is_hex_lower (hash s) = true).
  { intros s. unfold hash, padStart0, toString16.
    apply zeros_lower, hex_digits_lower. reflexivity. }
  unfold getContextSeed.
  repeat split; try apply hash_length; apply Hall.
Qed.

(** X2.  Read back as a hex number, the string [hash] returns is the
    unsigned 32-bit FNV-1a hash of the input: from the offset basis
    2166136261, each character is xored in and the word multiplied by
    16777619 modulo 2^32. *)
Theorem hash_parses_to_fnv1a (str : string) :
  parseInt16 (hash str) = fnv1a32 str
  /\ 0 <= parseInt16 (hash str) < 2 ^ 32.
Proof.
  assert (Hparse : parseInt16 (hash str) = hash32 str).
  { rewrite <- hash_hex8. f_equal. unfold substr0.
    rewrite <- (hash_length str) at 1. symmetry. apply substring_whole. }
  rewrite Hparse. split; [apply hash32_fnv1a | apply hash32_range].
Qed.

(** X3.  Every draw lies between 0 and 1, both ends included, and it is 1
    exactly when the key hashes to the largest 32-bit word. *)
Theorem draw_closed_unit_interval (seed0 : string) (index : Z) :
  (0 <= random seed0 index)%Q
  /\ (random seed0 index <= 1)%Q
  /\ ((random seed0 index == 1)%Q
      <-> hash32 (key seed0 index) = 4294967295).
Proof.
  destruct (random_bounds seed0 index) as [H0 H1].
  split; [exact H0 |]. split; [exact H1 |].
  pose proof (random_lt_1_iff seed0 index) as Hiff.
  split.
  - intros Heq.
    destruct (Z.eq_dec (hash32 (key seed0 index)) 4294967295) as [E | N];
      [exact E |].
    apply Hiff in N. rewrite Heq in N. discriminate N.
  - intros Hh.
    apply Qle_antisym; [exact H1 |].
    apply Qnot_lt_le. intros Hlt. apply Hiff in Hlt. contradiction.
Qed.

(** The key of [seed_a] and the index 12 hashes to the largest word. *)
Lemma draw_closed_unit_interval_witness :
  hash32 (key seed_a 12) = 4294967295 /\ (random seed_a 12 == 1)%Q.
Proof.
  assert (H : hash32 (key seed_a 12) = 4294967295)
    by (vm_compute; reflexivity).
  split; [exact H |].
  exact (proj2 (proj2 (proj2 (draw_closed_unit_interval seed_a 12))) H).
Defined.

Lemma draw_one_floor (seed0 : string) (index k : Z) :
  (random seed0 index == 1)%Q ->
  Qfloor (random seed0 index * inject_Z k) = k.
Proof. intros Heq. rewrite Heq, Qmult_1_l. apply Qfloor_Z. Qed.

(** X4.  With integers [min <= max] of magnitude below 2^52 (where the
    binary64 difference and sum of the code are exact), [randomInt] returns
    an integer from [min] to [max + 1]; it is [max + 1], one past the
    documented range, exactly when the draw is 1. *)
Theorem randomInt_closed_range (seed0 : string) (min max index : Z) :
  min <= max -> - 2 ^ 52 < min -> max < 2 ^ 52 ->
  exists n,
    randomInt seed0 min max index = Normal n
    /\ min <= n <= max + 1
    /\ (n = max + 1 <-> (random seed0 index == 1)%Q).
Proof.
  intros Hle _ _. eexists. split; [reflexivity |].
  destruct (random_bounds seed0 index) as [H0 H1].
  destruct (Qlt_le_dec (random seed0 index) 1) as [Hlt | Hge].
  - pose proof (floor_scaled (random seed0 index) (max - min + 1) H0 Hlt).
    split; [lia |]. split; [lia |].
    intros Heq. rewrite Heq in Hlt. discriminate Hlt.
  - assert (Heq : (random seed0 index == 1)%Q) by now apply Qle_antisym.
    rewrite (draw_one_floor seed0 index _ Heq).
    split; [lia |]. split; [intros _; exact Heq | intros _; lia].
Qed.

Lemma randomInt_closed_range_witness :
  0 <= 7200 /\ - 2 ^ 52 < 0 /\ 7200 < 2 ^ 52
  /\ exists n, randomInt seed_a 0 7200 12 = Normal n /\ 0 <= n <= 7200 + 1.
Proof.
  assert (Hle : 0 <= 7200) by lia.
  assert (Hlo : - 2 ^ 52 < 0) by lia.
  assert (Hhi : 7200 < 2 ^ 52) by lia.
  split; [exact Hle |]. split; [exact Hlo |]. split; [exact Hhi |].
  destruct (randomInt_closed_range seed_a 0 7200 12 Hle Hlo Hhi)
    as (n & Hn & Hr & _).
  exists n. split; [exact Hn | exact Hr].
Defined.

(** X5.  On a non-empty array [randomChoice] never returns [null]: it
    returns an element of the array when the draw is below 1, and
    [undefined], the element one past the end, when the draw is 1. *)
Theorem randomChoice_element_or_undefined {A : Type} (seed0 : string)
    (array : list A) (index : Z) :
  array <> [] ->
  ((random seed0 index < 1)%Q
   /\ exists a, randomChoice seed0 array index = Normal (val a) /\ In a array)
  \/ ((random seed0 index == 1)%Q
      /\ randomChoice seed0 array index = Normal undefined).
Proof.
  intros Hne.
  destruct (Qlt_le_dec (random seed0 index) 1) as [Hlt | Hge].
  - left. split; [exact Hlt | now apply randomChoice_in].
  - right.
    assert (Heq : (random seed0 index == 1)%Q)
      by (apply Qle_antisym; [apply random_bounds | exact Hge]).
    split; [exact Heq | now apply randomChoice_at_one].
Qed.

Lemma randomChoice_element_or_undefined_witness :
  [6; 8; 12] <> []
  /\ (((random seed_a 12 < 1)%Q
       /\ exists a, randomChoice seed_a [6; 8; 12] 12 = Normal (val a)
                    /\ In a [6; 8; 12])
      \/ ((random seed_a 12 == 1)%Q
          /\ randomChoice seed_a [6; 8; 12] 12 = Normal undefined)).
Proof.
  assert (Hne : [6; 8; 12] <> []) by discriminate.
  split; [exact Hne |].
  exact (randomChoice_element_or_undefined seed_a [6; 8; 12] 12 Hne).
Defined.

(** *** The weighted choice *)

Lemma fold_left_Qsum (l : list Q) :
  forall a, (fold_left Qplus l a == a + Qsum l)%Q.
Proof.
  induction l as [| w l IH]; intros a; cbn [fold_left].
  - unfold Qsum. cbn [fold_right]. lra.
  - rewrite IH. unfold Qsum. cbn [fold_right]. lra.
Qed.

Lemma Qsum_nonneg (l : list Q) :
  Forall (fun w => (0 < w)%Q) l -> (0 <= Qsum l)%Q.
Proof.
  induction 1 as [| w l Hw _ IH]; cbn [Qsum fold_right]; [lra |].
  unfold Qsum in IH. lra.
Qed.

Lemma weighted_loop_Qeq {A : Type} (items : list A) :
  forall weights r r', (r == r')%Q ->
    weighted_loop items weights (Some r)
    = weighted_loop items weights (Some r').
Proof.
  induction items as [| it items IH]; intros weights r r' Heq;
    [reflexivity |].
  cbn [weighted_loop]. destruct weights as [| w ws].
  - clear IH Heq. generalize (@tail Q []). intros ws.
    revert ws. induction items as [| it' items IH']; intros ws;
      [reflexivity |].
    cbn [weighted_loop]. apply IH'.
  - assert (Hsub : (r - w == r' - w)%Q) by (rewrite Heq; reflexivity).
    assert (Htest : Qle_bool (r - w) 0 = Qle_bool (r' - w) 0).
    { destruct (Qle_bool (r - w) 0) eqn:E1, (Qle_bool (r' - w) 0) eqn:E2;
        try reflexivity.
      - apply Qle_bool_iff in E1. rewrite Hsub in E1.
        apply Qle_bool_iff in E1. congruence.
      - apply Qle_bool_iff in E2. rewrite <- Hsub in E2.
        apply Qle_bool_iff in E2. congruence. }
    rewrite Htest. destruct (Qle_bool (r' - w) 0); [reflexivity |].
    cbn [tail]. now apply IH.
Qed.

Lemma weighted_loop_cumulative {A : Type} (items : list A) :
  forall (weights : list Q) (r : Q),
    length weights = length items ->
    Forall (fun w => (0 < w)%Q) weights ->
    items <> [] ->
    (r <= Qsum weights)%Q ->
    exists (i : nat) (it : A),
      weighted_loop items weights (Some r) = Some it
      /\ items !! i = Some it
      /\ (r <= Qsum (take (S i) weights))%Q
      /\ (i = 0%nat \/ (Qsum (take i weights) < r)%Q).
Proof.
  unfold Qsum.
  induction items as [| it items IH]; intros weights r Hlen Hpos Hne Hr;
    [contradiction |].
  destruct weights as [| w ws]; [discriminate Hlen |].
  apply Forall_cons in Hpos. destruct Hpos as [Hw Hws].
  cbn [fold_right] in Hr.
  cbn [weighted_loop tail].
  destruct (Qle_bool (r - w) 0) eqn:Htest.
  - apply Qle_bool_iff in Htest.
    exists 0%nat, it. cbn [firstn fold_right].
    rewrite firstn_O. cbn [fold_right].
    split; [reflexivity |]. split; [reflexivity |].
    split; [lra | now left].
  - assert (Hgt : (0 < r - w)%Q).
    { apply Qnot_le_lt. intros Hle. apply Qle_bool_iff in Hle. congruence. }
    assert (Hne' : items <> []).
    { intros ->. destruct ws; [| discriminate Hlen].
      cbn [fold_right] in Hr. lra. }
    destruct (IH ws (r - w)%Q) as (i & it' & Hloop & Hlook & Hup & Hlow);
      [now injection Hlen | exact Hws | exact Hne' | lra |].
    exists (S i), it'. split; [exact Hloop |]. split; [exact Hlook |].
    cbn [firstn fold_right] in *.
    split; [lra |]. right.
    destruct i as [| i].
    + rewrite firstn_O. cbn [fold_right]. lra.
    + destruct Hlow as [Hz | Hlow]; [discriminate Hz | lra].
Qed.

(** The item the exact loop returns: the first at which the running sum
    of the weights reaches the scaled draw. *)
Lemma weighted_choice_first {A : Type} (seed0 : string)
    (items : list A) (weights : list Q) (index : Z) :
  items <> [] ->
  length weights = length items ->
  Forall (fun w => (0 < w)%Q) weights ->
  exists (i : nat) (it : A),
    randomWeightedChoice seed0 items weights index = Normal (val it)
    /\ items !! i = Some it
    /\ (random seed0 index * Qsum weights <= Qsum (take (S i) weights))%Q
    /\ (i = 0%nat
        \/ (Qsum (take i weights) < random seed0 index * Qsum weights)%Q).
Proof.
  intros Hne Hlen Hpos.
  destruct (random_bounds seed0 index) as [H0 H1].
  pose proof (Qsum_nonneg weights Hpos) as Hsum.
  assert (Hr : (random seed0 index * Qsum weights <= Qsum weights)%Q) by nra.
  destruct (weighted_loop_cumulative items weights _ Hlen Hpos Hne Hr)
    as (i & it & Hloop & Hlook & Hup & Hlow).
  exists i, it. split; [| auto].
  destruct items as [| it0 rest]; [contradiction |].
  unfold randomWeightedChoice.
  rewrite (weighted_loop_Qeq (it0 :: rest) weights
             (random seed0 index * fold_left Qplus weights 0)%Q
             (random seed0 index * Qsum weights)%Q).
  - now rewrite Hloop.
  - rewrite fold_left_Qsum. lra.
Qed.

(** X6.  With one positive integer weight per item, a total weight of at
    most 65536 and a scaled draw (the draw times the total weight) that
    equals no partial sum of the weights, [randomWeightedChoice] returns
    the first item at which the running sum of the weights exceeds the
    scaled draw: the sum up to and including that item is above the scaled
    draw, and the sum before it is below.  (For such weights every
    subtraction of the code that leaves a positive remainder is exact, and
    the binary64 scaled draw is within 2^-37 of the rational one, which is
    at least 2^-32 away from every partial sum it does not equal: the code
    returns the same item.) *)
Theorem weighted_choice_cumulative {A : Type} (seed0 : string)
    (items : list A) (weights : list Q) (index : Z) :
  items <> [] ->
  length weights = length items ->
  Forall (fun w => (0 < w)%Q /\ Qden w = 1%positive) weights ->
  (Qsum weights <= 65536)%Q ->
  (forall i, (i < length weights)%nat ->
     ~ (random seed0 index * Qsum weights == Qsum (take (S i) weights))%Q) ->
  exists (i : nat) (it : A),
    randomWeightedChoice seed0 items weights index = Normal (val it)
    /\ items !! i = Some it
    /\ (random seed0 index * Qsum weights < Qsum (take (S i) weights))%Q
    /\ (i = 0%nat
        \/ (Qsum (take i weights) < random seed0 index * Qsum weights)%Q).
Proof.
  intros Hne Hlen Hint _ Hmiss.
  assert (Hpos : Forall (fun w => (0 < w)%Q) weights).
  { eapply Forall_impl; [exact Hint |]. intros w [Hw _]. exact Hw. }
  destruct (weighted_choice_first seed0 items weights index Hne Hlen Hpos)
    as (i & it & Hch & Hlook & Hup & Hlow).
  exists i, it. split; [exact Hch |]. split; [exact Hlook |].
  split; [| exact Hlow].
  assert (Hi : (i < length weights)%nat).
  { rewrite Hlen. eapply lookup_lt_Some. exact Hlook. }
  specialize (Hmiss i Hi).
  apply Qle_lteq in Hup. destruct Hup as [Hlt | Heq]; [exact Hlt |].
  contradiction.
Qed.

Lemma weighted_choice_cumulative_witness :
  ["Ubuntu 22.04"; "Windows 11"]%string <> []
  /\ Forall (fun w => (0 < w)%Q /\ Qden w = 1%positive) [60%Q; 40%Q]
  /\ (Qsum [60%Q; 40%Q] <= 65536)%Q
  /\ (forall i, (i < length [60%Q; 40%Q])%nat ->
        ~ (random seed_b 1 * Qsum [60%Q; 40%Q]
           == Qsum (take (S i) [60%Q; 40%Q]))%Q)
  /\ exists (i : nat) (it : string),
       randomWeightedChoice seed_b ["Ubuntu 22.04"; "Windows 11"]%string
         [60%Q; 40%Q] 1 = Normal (val it)
       /\ ["Ubuntu 22.04"; "Windows 11"]%string !! i = Some it.
Proof.
  assert (Hne : ["Ubuntu 22.04"; "Windows 11"]%string <> []) by discriminate.
  assert (Hint : Forall (fun w => (0 < w)%Q /\ Qden w = 1%positive)
                   [60%Q; 40%Q])
    by (repeat constructor).
  assert (Htotal : (Qsum [60%Q; 40%Q] <= 65536)%Q)
    by (vm_compute; discriminate).
  assert (Hmiss : forall i, (i < length [60%Q; 40%Q])%nat ->
            ~ (random seed_b 1 * Qsum [60%Q; 40%Q]
               == Qsum (take (S i) [60%Q; 40%Q]))%Q).
  { intros i Hi Heq.
    destruct i as [| [| i]]; [| | cbn in Hi; lia];
      vm_compute in Heq; discriminate Heq. }
  split; [exact Hne |]. split; [exact Hint |]. split; [exact Htotal |].
  split; [exact Hmiss |].
  destruct (weighted_choice_cumulative seed_b
              ["Ubuntu 22.04"; "Windows 11"]%string [60%Q; 40%Q] 1 Hne)
    as (i & it & Hch & Hlook & _).
  - reflexivity.
  - exact Hint.
  - exact Htotal.
  - exact Hmiss.
  - exists i, it. split; [exact Hch | exact Hlook].
Defined.

(** *** The shuffle *)

Lemma insert_head_Permutation {A : Type} (t : list A) :
  forall (j : nat) (y h : A),
    t !! j = Some y -> y :: <[j := h]> t ≡ₚ h :: t.
Proof.
  induction t as [| a t IH]; intros j y h Hj; [discriminate Hj |].
  destruct j as [| j]; cbn in Hj |- *.
  - injection Hj as ->. apply perm_swap.
  - etransitivity; [apply perm_swap |].
    etransitivity; [apply perm_skip, (IH j y h Hj) |].
    apply perm_swap.
Qed.

(** Exchanging two elements of a list gives a permutation of it. *)
Lemma swap_Permutation {A : Type} (a : list A) :
  forall (i j : nat) (x y : A),
    a !! i = Some x -> a !! j = Some y ->
    <[j := x]> (<[i := y]> a) ≡ₚ a.
Proof.
  induction a as [| h t IH]; intros i j x y Hi Hj; [discriminate Hi |].
  destruct i as [| i], j as [| j]; cbn in Hi, Hj |- *.
  - injection Hi as ->. injection Hj as ->. reflexivity.
  - injection Hi as ->. now apply insert_head_Permutation.
  - injection Hj as ->. now apply insert_head_Permutation.
  - apply perm_skip. now apply IH.
Qed.

Lemma elem_inside {A : Type} (a : list (maybe A)) (i : Z) :
  0 <= i < Z.of_nat (length a) ->
  a !! Z.to_nat i = Some (elem a i).
Proof.
  intros Hi. unfold elem, array_get.
  destruct (Z.ltb_spec i 0) as [Hneg | _]; [lia |].
  destruct (a !! Z.to_nat i) as [v |] eqn:Hlook; [reflexivity |].
  apply lookup_ge_None in Hlook. lia.
Qed.

Lemma store_inside {A : Type} (a : list (maybe A)) (i : Z) (v : maybe A) :
  0 <= i < Z.of_nat (length a) -> store a i v = <[Z.to_nat i := v]> a.
Proof.
  intros Hi. unfold store.
  destruct (Z.ltb_spec i 0) as [Hneg | _]; [lia |].
  destruct (Z.ltb_spec i (Z.of_nat (length a))) as [_ | Hge]; [reflexivity | lia].
Qed.

(** One step of the loop with a draw below 1 exchanges two elements. *)
Lemma shuffle_step_Permutation {A : Type} (seed0 : string) (startIndex : Z)
    (array l : list (maybe A)) (i : Z) :
  1 <= i < Z.of_nat (length array) ->
  (random seed0 (startIndex + i) < 1)%Q ->
  l ≡ₚ array ->
  exists l', shuffle_step seed0 startIndex (Normal l) i = Normal l'
             /\ l' ≡ₚ array.
Proof.
  intros Hi Hlt Hperm.
  assert (Hlen : length l = length array) by now apply Permutation_length.
  destruct (randomInt_range seed0 0 i (startIndex + i)) as (j & Hj & Hjr);
    [lia | exact Hlt |].
  unfold shuffle_step. cbn [bind]. rewrite Hj. cbn [bind].
  eexists. split; [reflexivity |].
  rewrite (store_inside l i) by lia.
  rewrite store_inside by (rewrite length_insert; lia).
  etransitivity; [| exact Hperm].
  apply swap_Permutation; apply elem_inside; lia.
Qed.

(** X7.  When the draws the loop uses (at [startIndex + i] for
    [1 <= i < length]) are below 1, [shuffle] returns a permutation of the
    array, of the same length. *)
Theorem shuffle_permutes {A : Type} (seed0 : string)
    (array : list (maybe A)) (startIndex : Z) :
  (forall i, 1 <= i < Z.of_nat (length array) ->
     (random seed0 (startIndex + i) < 1)%Q) ->
  exists l,
    shuffle seed0 array startIndex = Normal l
    /\ l ≡ₚ array
    /\ length l = length array.
Proof.
  intros Hdraws.
  assert (Hinv : exists l, shuffle seed0 array startIndex = Normal l
                           /\ l ≡ₚ array).
  { unfold shuffle.
    apply (fold_left_invariant (shuffle_step seed0 startIndex)
             (fun acc => exists l, acc = Normal l /\ l ≡ₚ array)).
    - intros acc i Hin (l & -> & Hperm).
      apply in_rev, In_zrange in Hin.
      apply shuffle_step_Permutation; auto.
    - exists array. split; reflexivity. }
  destruct Hinv as (l & Hl & Hperm).
  exists l. split; [exact Hl |]. split; [exact Hperm |].
  now apply Permutation_length.
Qed.

Lemma shuffle_permutes_witness :
  (forall i, 1 <= i < Z.of_nat (length [val 1; val 2; val 3]) ->
     (random seed_b (0 + i) < 1)%Q)
  /\ exists l, shuffle seed_b [val 1; val 2; val 3] 0 = Normal l
               /\ l ≡ₚ [val 1; val 2; val 3].
Proof.
  assert (Hdraws : forall i,
            1 <= i < Z.of_nat (length [val 1; val 2; val 3]) ->
            (random seed_b (0 + i) < 1)%Q).
  { intros i Hi. cbn [length] in Hi.
    assert (Hcases : i = 1 \/ i = 2) by lia.
    destruct Hcases as [-> | ->]; vm_compute; reflexivity. }
  split; [exact Hdraws |].
  destruct (shuffle_permutes seed_b [val 1; val 2; val 3] 0 Hdraws)
    as (l & Hl & Hperm & _).
  exists l. split; [exact Hl | exact Hperm].
Defined.

(** ** The seed lifecycle: stores, lookups and clears *)

Lemma map_get_map_set_same (m : list (string * maybe string)) (k : string)
    (v : maybe string) :
  map_get (map_set m k v) k = v.
Proof.
  induction m as [| [k' v'] m IH]; cbn [map_set map_get].
  - now rewrite String.eqb_refl.
  - destruct (String.eqb k' k) eqn:E; cbn [map_get]; rewrite E;
      [reflexivity | exact IH].
Qed.

Lemma map_get_map_set_other (m : list (string * maybe string))
    (k k' : string) (v : maybe string) :
  k' <> k -> map_get (map_set m k v) k' = map_get m k'.
Proof.
  intros Hne. induction m as [| [k0 v0] m IH]; cbn [map_set map_get].
  - destruct (String.eqb_spec k k') as [-> | _]; [contradiction | reflexivity].
  - destruct (String.eqb_spec k0 k) as [-> | Hk]; cbn [map_get].
    + destruct (String.eqb_spec k k') as [-> | _]; [contradiction | reflexivity].
    + now rewrite IH.
Qed.

Lemma map_get_map_delete_other (m : list (string * maybe string))
    (k k' : string) :
  k' <> k -> map_get (map_delete m k) k' = map_get m k'.
Proof.
  intros Hne. unfold map_delete.
  induction m as [| [k0 v0] m IH]; [reflexivity |].
  cbn [List.filter fst map_get].
  destruct (String.eqb_spec k0 k) as [-> | Hk]; cbn [negb map_get].
  - destruct (String.eqb_spec k k') as [-> | _]; [contradiction | exact IH].
  - now rewrite IH.
Qed.

Lemma map_has_map_delete (m : list (string * maybe string)) (k : string) :
  map_has (map_delete m k) k = false.
Proof.
  unfold map_has, map_delete.
  induction m as [| [k0 v0] m IH]; [reflexivity |].
  cbn [List.filter fst].
  destruct (String.eqb k0 k) eqn:E; cbn [negb]; [exact IH |].
  cbn [existsb fst]. now rewrite E, IH.
Qed.

Lemma map_get_absent (m : list (string * maybe string)) (k : string) :
  map_has m k = false -> map_get m k = undefined.
Proof.
  unfold map_has. induction m as [| [k0 v0] m IH]; [reflexivity |].
  cbn [existsb fst map_get]. destruct (String.eqb k0 k); [discriminate |].
  exact IH.
Qed.

Lemma length_map_set_present (m : list (string * maybe string)) (k : string)
    (v : maybe string) :
  map_has m k = true -> length (map_set m k v) = length m.
Proof.
  intros Hhas. rewrite <- (List.length_map fst), keys_map_set, Hhas.
  apply List.length_map.
Qed.

(** After [storeSeedInMemory], the domain maps to the current seed: the
    entry an overflow evicts is never the one just stored. *)
Lemma store_then_get (domain : string) (st : state) :
  lifecycle_invariant st ->
  map_get (domainSeeds (storeSeedInMemory domain st)) domain
  = currentSeed st.
Proof.
  intros [Hnd Hlen]. unfold storeSeedInMemory. cbn [domainSeeds].
  pose proof (map_get_map_set_same (domainSeeds st) domain (currentSeed st))
    as Hget.
  destruct (Nat.ltb_spec 100
              (length (map_set (domainSeeds st) domain (currentSeed st))))
    as [Hover | _]; [| exact Hget].
  destruct (map_has (domainSeeds st) domain) eqn:Hhas.
  { rewrite length_map_set_present in Hover by exact Hhas. lia. }
  rewrite (map_set_new _ _ _ Hhas) in *.
  destruct (domainSeeds st) as [| [k0 v0] m'] eqn:Hm;
    [cbn in Hover; lia |].
  cbn [app first_key].
  rewrite map_get_map_delete_other; [exact Hget |].
  intros ->. cbn in Hhas. now rewrite String.eqb_refl in Hhas.
Qed.

(** X8.  In a state with at most 100 domains, [generateSeed] returns the
    new seed, makes it the current seed and files it under the domain:
    looking the domain up gives it back.  Every later [getSeed], for any
    domain, then returns that seed and changes nothing. *)
Theorem generateSeed_stores_seed (domain fresh : string) (st : state) :
  lifecycle_invariant st ->
  fst (generateSeed domain fresh st) = fresh
  /\ currentSeed (snd (generateSeed domain fresh st)) = val fresh
  /\ map_get (domainSeeds (snd (generateSeed domain fresh st))) domain
     = val fresh
  /\ (fresh <> ""%string ->
      forall domain' fresh',
        getSeed domain' fresh' (snd (generateSeed domain fresh st))
        = (fresh, snd (generateSeed domain fresh st))).
Proof.
  intros Hinv. unfold generateSeed. cbn [fst snd].
  split; [reflexivity |]. split; [reflexivity |]. split.
  - now rewrite store_then_get.
  - intros Hne domain' fresh'. now apply getSeed_stable.
Qed.

Lemma generateSeed_stores_seed_witness :
  lifecycle_invariant full_state
  /\ map_get (domainSeeds (snd (generateSeed "example.org" seed_a full_state)))
       "example.org"
     = val seed_a.
Proof.
  assert (Hinv : lifecycle_invariant full_state).
  { split; [apply distinct_NoDup; vm_compute; reflexivity |].
    apply Nat.le_refl. }
  split; [exact Hinv |].
  apply (generateSeed_stores_seed "example.org" seed_a full_state Hinv).
Defined.

(** X9.  [clearSeed] forgets the current seed and the entry of the domain
    and leaves the entries of the other domains as they were; the next
    [getSeed] for that domain creates a new seed. *)
Theorem clearSeed_forgets_domain (domain fresh : string) (st : state) :
  currentSeed (clearSeed domain st) = null
  /\ map_has (domainSeeds (clearSeed domain st)) domain = false
  /\ (forall domain', domain' <> domain ->
        map_get (domainSeeds (clearSeed domain st)) domain'
        = map_get (domainSeeds st) domain')
  /\ fst (getSeed domain fresh (clearSeed domain st)) = fresh.
Proof.
  split; [reflexivity |]. split; [apply map_has_map_delete |]. split.
  - intros domain' Hne. now apply map_get_map_delete_other.
  - set (st' := clearSeed domain st).
    assert (Hc : currentSeed st' = null) by reflexivity.
    assert (Hg : map_get (domainSeeds st') domain = undefined)
      by apply map_get_absent, map_has_map_delete.
    unfold getSeed. rewrite Hc. unfold retrieve_or_generate.
    rewrite Hg. reflexivity.
Qed.

(** X10.  [getSeed] is idempotent: after one call, every further call (for
    any domain) returns the same seed and leaves the state alone.  And the
    first call touches the domain map only when it hands out the new seed. *)
Theorem getSeed_idempotent (domain fresh domain' fresh' : string)
    (st : state) :
  fresh <> ""%string ->
  getSeed domain' fresh' (snd (getSeed domain fresh st))
  = (fst (getSeed domain fresh st), snd (getSeed domain fresh st))
  /\ (fst (getSeed domain fresh st) = fresh
      \/ domainSeeds (snd (getSeed domain fresh st)) = domainSeeds st).
Proof.
  intros Hfresh.
  destruct (getSeed_sets domain fresh st Hfresh) as [Hcur Hne].
  split; [now apply getSeed_stable |].
  assert (Hr : fst (retrieve_or_generate domain fresh st) = fresh
               \/ domainSeeds (snd (retrieve_or_generate domain fresh st))
                  = domainSeeds st).
  { unfold retrieve_or_generate.
    destruct (map_get (domainSeeds st) domain) as [| | s];
      try (left; reflexivity).
    destruct (truthy (val s)); [right; reflexivity | left; reflexivity]. }
  unfold getSeed. destruct (currentSeed st) as [| | s]; try exact Hr.
  destruct (truthy (val s)); [right; reflexivity | exact Hr].
Qed.

Lemma getSeed_idempotent_witness :
  seed_a <> ""%string
  /\ getSeed "example.net" seed_b (snd (getSeed "example.org" seed_a initial))
     = (fst (getSeed "example.org" seed_a initial),
        snd (getSeed "example.org" seed_a initial)).
Proof.
  assert (Hne : seed_a <> ""%string) by discriminate.
  split; [exact Hne |].
  apply (getSeed_idempotent "example.org" seed_a "example.net" seed_b
           initial Hne).
Defined.

(** ** The other blocks of the profile *)


(** X12.  The GPU part of [selectHardware]: without a GPU table the field
    stays [undefined]; an empty table makes the call throw a TypeError
    ([parseGPU] of [null]); a non-empty table gives a GPU whose model is one
    of the table's names. *)
Theorem selectGPU_outcome (seed0 : string) (table : list (string * Q)) :
  selectGPU seed0 None = Normal undefined
  /\ selectGPU seed0 (Some []) = Throw TypeError
  /\ (table <> [] ->
      exists g, selectGPU seed0 (Some table) = Normal (val g)
                /\ In (gpu_model g) (map fst table)).
Proof.
  split; [reflexivity |]. split; [reflexivity |].
  intros Hne. unfold selectGPU.
  destruct (randomWeightedChoice_in seed0 (map fst table) (map snd table) 4)
    as (m & Hm & Hin).
  { destruct table; [contradiction | discriminate]. }
  rewrite Hm. cbn [bind parseGPU].
  eexists. split; [reflexivity | exact Hin].
Qed.

Lemma selectGPU_outcome_witness :
  [("Intel Iris Xe Graphics"%string, 100%Q)] <> []
  /\ exists g,
       selectGPU seed_b (Some [("Intel Iris Xe Graphics"%string, 100%Q)])
       = Normal (val g)
       /\ In (gpu_model g)
             (map fst [("Intel Iris Xe Graphics"%string, 100%Q)]).
Proof.
  assert (Hne : [("Intel Iris Xe Graphics"%string, 100%Q)] <> [])
    by discriminate.
  split; [exact Hne |].
  exact (proj2 (proj2 (selectGPU_outcome seed_b
                         [("Intel Iris Xe Graphics"%string, 100%Q)])) Hne).
Defined.

Lemma prefix_app (p b : string) : String.prefix p (p ++ b)%string = true.
Proof.
  induction p as [| c p IH]; [now destruct b |].
  change (String.prefix (String c p) (String c (p ++ b)) = true).
  change ((if ascii_dec c c then String.prefix p (p ++ b) else false) = true).
  destruct (ascii_dec c c) as [_ | Hne]; [exact IH | contradiction].
Qed.

Lemma includes_prefix (s t : string) :
  String.prefix t s = true -> includes s t = true.
Proof. intros H. destruct s; cbn [includes]; now rewrite H. Qed.

Lemma includes_here (m b : string) : includes (m ++ b)%string m = true.
Proof. apply includes_prefix, prefix_app. Qed.

Lemma string_app_empty_r (s : string) : (s ++ "")%string = s.
Proof.
  induction s as [| c s IH]; [reflexivity |].
  change (String c (s ++ "") = String c s). now f_equal.
Qed.

Lemma includes_refl (m : string) : includes m m = true.
Proof.
  rewrite <- (string_app_empty_r m) at 1. apply includes_here.
Qed.

Lemma includes_app_r (a s t : string) :
  includes s t = true -> includes (a ++ s)%string t = true.
Proof.
  intros H. induction a as [| c a IH]; [exact H |].
  change (String.prefix t (String c (a ++ s)) || includes (a ++ s) t = true).
  rewrite IH. apply orb_true_r.
Qed.

(** X13.  The WebGL vendor agrees with the navigator vendor of
    [getVendor] on every OS name that does not include "Windows": both are
    the Apple ones exactly when the name includes "macOS".  A name that
    includes "Windows" always gets the WebGL vendor "Google Inc.".  And the
    renderer string always contains the GPU model as given ("undefined"
    without a GPU). *)
Theorem webgl_vendor_and_renderer (osName : maybe string) (gpu : maybe GPU) :
  (name_includes osName "Windows" = false ->
   (webgl_vendor (buildWebGLProfile osName gpu) = "Apple Inc."%string
    <-> getVendor osName = "Apple Computer, Inc."%string))
  /\ (name_includes osName "Windows" = true ->
      webgl_vendor (buildWebGLProfile osName gpu) = "Google Inc."%string)
  /\ includes (renderer (buildWebGLProfile osName gpu)) (model_text gpu)
     = true.
Proof.
  unfold buildWebGLProfile.
  assert (Hv : getVendor osName
               = if name_includes osName "macOS"
                 then "Apple Computer, Inc."%string else "Google Inc."%string).
  { destruct osName; reflexivity. }
  rewrite Hv.
  destruct (name_includes osName "Windows") eqn:Hw;
    [| destruct (name_includes osName "macOS") eqn:Hm];
    cbn [webgl_vendor renderer].
  - split; [discriminate |]. split; [reflexivity |].
    apply (includes_app_r "ANGLE (").
    destruct (vendor_is gpu "NVIDIA"); [| destruct (vendor_is gpu "AMD")].
    + apply (includes_app_r "NVIDIA, "), includes_here.
    + apply (includes_app_r "AMD, "), includes_here.
    + apply (includes_app_r "Intel, "), includes_here.
  - split; [intros _; split; reflexivity |]. split; [discriminate |].
    apply (includes_app_r "ANGLE (Apple, ANGLE Metal Renderer: "),
      includes_here.
  - split; [intros _; split; discriminate |]. split; [discriminate |].
    apply (includes_app_r "Mesa "), includes_refl.
Qed.

Lemma webgl_vendor_and_renderer_witness :
  name_includes (val "macOS 14"%string) "Windows" = false
  /\ (webgl_vendor (buildWebGLProfile (val "macOS 14"%string) undefined)
      = "Apple Inc."%string
      <-> getVendor (val "macOS 14"%string) = "Apple Computer, Inc."%string).
Proof.
  assert (Hw : name_includes (val "macOS 14"%string) "Windows" = false)
    by reflexivity.
  split; [exact Hw |].
  exact (proj1 (webgl_vendor_and_renderer (val "macOS 14"%string) undefined)
           Hw).
Defined.

Lemma randomInt_bounds (seed0 : string) (min max index : Z) :
  min <= max ->
  exists n, randomInt seed0 min max index = Normal n /\ min <= n <= max + 1.
Proof.
  intros Hle. eexists. split; [reflexivity |].
  destruct (random_bounds seed0 index) as [H0 H1].
  destruct (Qlt_le_dec (random seed0 index) 1) as [Hlt | Hge].
  - pose proof (floor_scaled (random seed0 index) (max - min + 1) H0 Hlt).
    lia.
  - rewrite (draw_one_floor seed0 index);
      [lia | now apply Qle_antisym].
Qed.

(** X14.  [buildBatteryProfile] never throws.  For an archetype whose name
    includes none of "Laptop", "Tablet" and "2-in-1" it returns the fixed
    plugged-in values (charging, 0 s, Infinity, level 1).  Otherwise the
    charging time is from 0 to 7201 s, the discharging time is finite, from
    3600 to 28801 s, and the level is from 0.2 to 1. *)
Theorem battery_profile_ranges (seed0 archetypeName : string) :
  exists b,
    buildBatteryProfile seed0 archetypeName = Normal b
    /\ (hasBattery archetypeName = false ->
        b = {| charging := true; chargingTime := 0;
               dischargingTime := Infinity; level := 1%Q |})
    /\ (hasBattery archetypeName = true ->
        0 <= chargingTime b <= 7201
        /\ (exists t, dischargingTime b = Finite t /\ 3600 <= t <= 28801)
        /\ (2 # 10 <= level b)%Q /\ (level b <= 1)%Q).
Proof.
  unfold buildBatteryProfile.
  destruct (hasBattery archetypeName).
  - destruct (randomInt_bounds seed0 0 7200 10) as (ct & Hct & Hctr); [lia |].
    destruct (randomInt_bounds seed0 3600 28800 11) as (dt & Hdt & Hdtr);
      [lia |].
    rewrite Hct, Hdt. cbn [bind].
    eexists. split; [reflexivity |]. split; [discriminate |].
    intros _. cbn [chargingTime dischargingTime level].
    split; [lia |]. split; [exists dt; split; [reflexivity | lia] |].
    destruct (random_bounds seed0 12) as [H0 H1]. split; lra.
  - eexists. split; [reflexivity |]. split; [reflexivity | discriminate].
Qed.

Lemma battery_profile_ranges_witness :
  hasBattery "Gaming Laptop" = true
  /\ exists b,
       buildBatteryProfile seed_b "Gaming Laptop" = Normal b
       /\ 0 <= chargingTime b <= 7201.
Proof.
  assert (Hb : hasBattery "Gaming Laptop" = true) by reflexivity.
  split; [exact Hb |].
  destruct (battery_profile_ranges seed_b "Gaming Laptop")
    as (b & Hbuild & _ & Hranges).
  exists b. split; [exact Hbuild | exact (proj1 (Hranges Hb))].
Defined.

(** X15.  The charging time and the core count of the i9 tier come from
    the same draw, at index 10: on a battery archetype with such a CPU the
    position [k] of the core count among 16, 20, 24, 32 fixes the quarter of
    the range the charging time [t] lies in,
    [7201 * k < 4 * (t + 1)] and [4 * t < 7201 * (k + 1)]. *)
Theorem core_count_and_charging_time_share_draw (seed0 archetypeName c : string) :
  hasBattery archetypeName = true ->
  c <> ""%string ->
  tier_i9 (toLowerCase c) = true ->
  exists k b,
    getCoreCount seed0 (val c) = Normal (array_get [16; 20; 24; 32] k)
    /\ buildBatteryProfile seed0 archetypeName = Normal b
    /\ 7201 * k < 4 * (chargingTime b + 1)
    /\ 4 * chargingTime b < 7201 * (k + 1).
Proof.
  intros Hbat Hne H9.
  exists (Qfloor (random seed0 10 * inject_Z 4)).
  unfold getCoreCount, buildBatteryProfile. rewrite Hbat.
  destruct (String.eqb_spec c "") as [-> | _]; [contradiction |].
  cbv zeta. rewrite H9.
  unfold randomChoice, randomInt. cbn [bind].
  eexists. split; [| split; [reflexivity |]].
  - change (Z.of_nat (length [16; 20; 24; 32]) - 1 - 0 + 1) with 4.
    now rewrite Z.add_0_r.
  - cbn [chargingTime].
    change (7200 - 0 + 1) with 7201. rewrite Z.add_0_r.
    set (r := random seed0 10).
    pose proof (Qfloor_le (r * inject_Z 4)) as Hk1.
    pose proof (Qlt_floor (r * inject_Z 4)) as Hk2.
    pose proof (Qfloor_le (r * inject_Z 7201)) as Ht1.
    pose proof (Qlt_floor (r * inject_Z 7201)) as Ht2.
    set (k := Qfloor (r * inject_Z 4)) in *.
    set (t := Qfloor (r * inject_Z 7201)) in *.
    rewrite inject_Z_plus in Hk2, Ht2.
    change (inject_Z 4) with 4%Q in *. change (inject_Z 7201) with 7201%Q in *.
    change (inject_Z 1) with 1%Q in *.
    assert (H1 : (7201 * inject_Z k < 4 * (inject_Z t + 1))%Q) by lra.
    assert (H2 : (4 * inject_Z t < 7201 * (inject_Z k + 1))%Q) by lra.
    split.
    + rewrite Zlt_Qlt, !inject_Z_mult, inject_Z_plus. exact H1.
    + rewrite Zlt_Qlt, !inject_Z_mult, inject_Z_plus. exact H2.
Qed.

Lemma core_count_and_charging_time_share_draw_witness :
  hasBattery "Gaming Laptop" = true
  /\ tier_i9 (toLowerCase "Intel Core i9") = true
  /\ exists k b,
       getCoreCount seed_b (val "Intel Core i9"%string)
       = Normal (array_get [16; 20; 24; 32] k)
       /\ buildBatteryProfile seed_b "Gaming Laptop" = Normal b
       /\ 7201 * k < 4 * (chargingTime b + 1).
Proof.
  assert (Hb : hasBattery "Gaming Laptop" = true) by reflexivity.
  assert (Hne : "Intel Core i9"%string <> ""%string) by discriminate.
  assert (H9 : tier_i9 (toLowerCase "Intel Core i9") = true) by reflexivity.
  split; [exact Hb |]. split; [exact H9 |].
  destruct (core_count_and_charging_time_share_draw seed_b "Gaming Laptop"
              "Intel Core i9" Hb Hne H9) as (k & b & Hk & Hbuild & Hlow & _).
  exists k, b. auto.
Defined.

(** X16.  [selectDisplay] never returns a zero colour or pixel depth (a
    missing or zero depth becomes 24).  An empty [resolutions] array gives
    the resolution [null]; otherwise, with the draw at index 5 below 1, the
    resolution is one of the array, and "1920x1080" when the archetype has
    no display or no [resolutions]. *)
Theorem selectDisplay_outcome (seed0 : string) (display : option DisplayConfig)
    (l : list string) :
  (exists d, selectDisplay seed0 display = Normal d
             /\ colorDepth d <> 0 /\ pixelDepth d <> 0)
  /\ (forall c, display = Some c -> resolutions c = Some [] ->
        exists d, selectDisplay seed0 display = Normal d
                  /\ resolution d = null)
  /\ ((random seed0 5 < 1)%Q ->
      (forall c, display = Some c -> resolutions c = Some l -> l <> [] ->
         exists d r, selectDisplay seed0 display = Normal d
                     /\ resolution d = val r /\ In r l)
      /\ (display = None \/ (exists c, display = Some c
                                       /\ resolutions c = None) ->
          exists d, selectDisplay seed0 display = Normal d
                    /\ resolution d = val "1920x1080"%string)).
Proof.
  assert (Hdepth : forall v, or_default v 24 <> 0).
  { intros [n |]; cbn; [| discriminate].
    destruct (Z.eqb_spec n 0); [discriminate | assumption]. }
  assert (Hnothrow : forall arr, exists r,
            randomChoice seed0 (A := string) arr 5 = Normal r).
  { intros arr. destruct arr; cbn; eauto. }
  split; [| split].
  - unfold selectDisplay.
    match goal with
    | |- context [randomChoice seed0 ?arr 5] =>
        destruct (Hnothrow arr) as [r Hr]; rewrite Hr
    end.
    cbn [bind]. eexists. split; [reflexivity |].
    cbn [colorDepth pixelDepth]. split; apply Hdepth.
  - intros c -> Hres. unfold selectDisplay. rewrite Hres. cbn.
    eexists. split; reflexivity.
  - intros Hlt. split.
    + intros c -> Hres Hne. unfold selectDisplay. rewrite Hres.
      destruct (randomChoice_in seed0 l 5 Hne Hlt) as (r & Hr & Hin).
      rewrite Hr. cbn [bind]. eexists. exists r.
      split; [reflexivity |]. split; [reflexivity | exact Hin].
    + intros Hmissing.
      destruct (randomChoice_in seed0 ["1920x1080"%string] 5) as (r & Hr & Hin);
        [discriminate | exact Hlt |].
      destruct Hin as [<- | []].
      unfold selectDisplay.
      destruct Hmissing as [-> | (c & -> & Hres)]; [| rewrite Hres];
        cbn [resolutions]; rewrite Hr; cbn [bind];
        eexists; split; reflexivity.
Qed.

Lemma selectDisplay_outcome_witness :
  (random seed_b 5 < 1)%Q
  /\ exists d, selectDisplay seed_b None = Normal d
               /\ resolution d = val "1920x1080"%string.
Proof.
  assert (Hlt : (random seed_b 5 < 1)%Q) by (vm_compute; reflexivity).
  split; [exact Hlt |].
  apply (proj2 (proj2 (proj2 (selectDisplay_outcome seed_b None [])) Hlt)).
  now left.
Defined.

Lemma replace_first_absent (s pat rep : string) :
  includes s pat = false -> replace_first s pat rep = s.
Proof.
  induction s as [| c s IH]; intros H.
  - cbn [includes] in H. apply orb_false_iff in H. destruct H as [Hp _].
    cbn [replace_first]. now rewrite Hp.
  - change (String.prefix pat (String c s) || includes s pat = false) in H.
    apply orb_false_iff in H. destruct H as [Hp Hs].
    change (replace_first (String c s) pat rep)
      with (if String.prefix pat (String c s)
            then (rep ++ string_drop (String.length pat) (String c s))%string
            else String c (replace_first s pat rep)).
    rewrite Hp. f_equal. now apply IH.
Qed.

Lemma string_drop_app (p b : string) :
  string_drop (String.length p) (p ++ b)%string = b.
Proof. induction p as [| c p IH]; [now destruct b | exact IH]. Qed.

Lemma replace_first_here (pat b rep : string) :
  replace_first (pat ++ b)%string pat rep = (rep ++ b)%string.
Proof.
  assert (Hunfold : forall s,
            replace_first s pat rep
            = if String.prefix pat s
              then (rep ++ string_drop (String.length pat) s)%string
              else match s with
                   | EmptyString => EmptyString
                   | String c s' => String c (replace_first s' pat rep)
                   end) by (intros [| c s]; reflexivity).
  rewrite Hunfold, prefix_app, string_drop_app. reflexivity.
Qed.

(** Before its first brace a string cannot hold the placeholder. *)
Lemma replace_first_after (a b rep : string) :
  includes a "{" = false ->
  replace_first (a ++ "{CHROME_VERSION}" ++ b)%string "{CHROME_VERSION}" rep
  = (a ++ rep ++ b)%string.
Proof.
  induction a as [| c a IH]; intros Ha.
  - exact (replace_first_here "{CHROME_VERSION}" b rep).
  - change (String.prefix "{" (String c a) || includes a "{" = false) in Ha.
    apply orb_false_iff in Ha. destruct Ha as [Hc Ha].
    change ((String c a ++ "{CHROME_VERSION}" ++ b)%string)
      with (String c (a ++ "{CHROME_VERSION}" ++ b)%string).
    change (replace_first (String c (a ++ "{CHROME_VERSION}" ++ b))
              "{CHROME_VERSION}" rep)
      with (if String.prefix "{CHROME_VERSION}"
                 (String c (a ++ "{CHROME_VERSION}" ++ b))
            then (rep ++ string_drop (String.length "{CHROME_VERSION}")
                           (String c (a ++ "{CHROME_VERSION}" ++ b)))%string
            else String c (replace_first (a ++ "{CHROME_VERSION}" ++ b)
                             "{CHROME_VERSION}" rep)).
    assert (Hp : String.prefix "{CHROME_VERSION}"
                   (String c (a ++ "{CHROME_VERSION}" ++ b)) = false).
    { cbn [String.prefix] in Hc |- *.
      destruct (ascii_dec "{" c) as [-> | _]; [| reflexivity].
      destruct a; discriminate Hc. }
    rewrite Hp, (IH Ha). reflexivity.
Qed.

(** X17.  [buildUserAgent] returns a template without the placeholder
    [{CHROME_VERSION}] as it is, under every seed.  In a template whose
    first brace opens the placeholder, it puts one of the four Chrome
    versions in its place when the draw at index 6 is below 1, and the text
    "undefined" when the draw is 1. *)
Theorem buildUserAgent_substitutes (seed0 userAgent a b : string) :
  (includes userAgent "{CHROME_VERSION}" = false ->
   buildUserAgent seed0 userAgent = Normal userAgent)
  /\ (includes a "{" = false ->
      ((random seed0 6 < 1)%Q ->
       exists v, In v chrome_versions
                 /\ buildUserAgent seed0 (a ++ "{CHROME_VERSION}" ++ b)
                    = Normal (a ++ v ++ b)%string)
      /\ ((random seed0 6 == 1)%Q ->
          buildUserAgent seed0 (a ++ "{CHROME_VERSION}" ++ b)
          = Normal (a ++ "undefined" ++ b)%string)).
Proof.
  unfold buildUserAgent. split.
  - intros Habs.
    assert (Hnothrow : exists r, randomChoice seed0 chrome_versions 6
                                 = Normal r) by (cbn; eauto).
    destruct Hnothrow as [r Hr]. rewrite Hr. cbn [bind].
    now rewrite replace_first_absent.
  - intros Ha. split.
    + intros Hlt.
      destruct (randomChoice_in seed0 chrome_versions 6) as (v & Hv & Hin);
        [discriminate | exact Hlt |].
      exists v. split; [exact Hin |].
      rewrite Hv. cbn [bind replacement_text].
      now rewrite replace_first_after.
    + intros Heq.
      rewrite (randomChoice_at_one seed0 chrome_versions 6);
        [| discriminate | exact Heq].
      cbn [bind replacement_text]. now rewrite replace_first_after.
Qed.

Lemma buildUserAgent_substitutes_witness :
  includes "Mozilla/5.0 Chrome/" "{" = false
  /\ (random seed_b 6 < 1)%Q
  /\ exists v,
       In v chrome_versions
       /\ buildUserAgent seed_b
            ("Mozilla/5.0 Chrome/" ++ "{CHROME_VERSION}" ++ " Safari/537.36")
          = Normal ("Mozilla/5.0 Chrome/" ++ v ++ " Safari/537.36")%string.
Proof.
  assert (Ha : includes "Mozilla/5.0 Chrome/" "{" = false) by reflexivity.
  assert (Hlt : (random seed_b 6 < 1)%Q) by (vm_compute; reflexivity).
  split; [exact Ha |]. split; [exact Hlt |].
  exact (proj1 (proj2 (buildUserAgent_substitutes seed_b ""
                         "Mozilla/5.0 Chrome/" " Safari/537.36") Ha) Hlt).
Defined.

(** ** The screen values *)

Import ScreenInterceptor.

(** X18.  [getTaskbarHeight] is 23, 27 or 40, and 23 only for a name that
    includes "macOS" and not "Windows".  [calculatePixelRatio] is 1 or 2 and
    does not depend on the OS name: it is 2 exactly when the resolution
    (by default "1920x1080") includes "2560", "3840" or "2880", so the test
    for macOS after it never decides. *)
Theorem taskbar_and_pixel_ratio (resolution0 osName osName' : maybe string) :
  In (getTaskbarHeight osName) [23; 27; 40]
  /\ (getTaskbarHeight osName = 23 ->
      name_includes osName "macOS" = true
      /\ name_includes osName "Windows" = false)
  /\ calculatePixelRatio resolution0 osName
     = calculatePixelRatio resolution0 osName'
  /\ In (calculatePixelRatio resolution0 osName) [1; 2]
  /\ (calculatePixelRatio resolution0 osName = 2
      <-> includes (resolution_or_default resolution0) "2560"
          || includes (resolution_or_default resolution0) "3840"
          || includes (resolution_or_default resolution0) "2880" = true).
Proof.
  split; [| split].
  - unfold getTaskbarHeight. destruct osName as [| | n]; cbn; auto.
    destruct (String.eqb n ""); [cbn; auto |].
    destruct (includes n "Windows"); [cbn; auto |].
    destruct (includes n "macOS"); [cbn; auto |].
    destruct (includes n "Linux"); cbn; auto.
  - unfold getTaskbarHeight, name_includes.
    destruct osName as [| | n]; try discriminate.
    destruct (String.eqb n ""); [discriminate |].
    destruct (includes n "Windows"); [discriminate |].
    destruct (includes n "macOS"); [auto |].
    destruct (includes n "Linux"); discriminate.
  - unfold calculatePixelRatio.
    set (r := resolution_or_default resolution0).
    destruct (includes r "2560") eqn:H1, (includes r "3840") eqn:H2,
      (includes r "2880") eqn:H3; cbn [orb andb];
      rewrite ?andb_false_r;
      (split; [reflexivity |]); (split; [cbn; auto |]);
      split; intros H; try reflexivity; try discriminate H.
Qed.

Lemma taskbar_and_pixel_ratio_witness :
  getTaskbarHeight (val "macOS 14"%string) = 23
  /\ name_includes (val "macOS 14"%string) "macOS" = true.
Proof.
  assert (H : getTaskbarHeight (val "macOS 14"%string) = 23) by reflexivity.
  split; [exact H |].
  exact (proj1 (proj1 (proj2 (taskbar_and_pixel_ratio undefined
                                (val "macOS 14"%string) undefined)) H)).
Defined.

Lemma clearSeed_forgets_domain_witness :
  "example.net"%string <> "example.org"%string
  /\ map_get (domainSeeds (clearSeed "example.org" full_state)) "example.net"
     = map_get (domainSeeds full_state) "example.net".
Proof.
  assert (Hne : "example.net"%string <> "example.org"%string) by discriminate.
  split; [exact Hne |].
  exact (proj1 (proj2 (proj2 (clearSeed_forgets_domain "example.org" seed_a
                                full_state))) "example.net"%string Hne).
Defined.


(** ** The canvas hash and the noise *)

Lemma ToInt32_offset (u : Z) : exists k, ToInt32 u = u + 2 ^ 32 * k.
Proof.
  exists (- ((u + 2 ^ 31) / 2 ^ 32)). unfold ToInt32.
  rewrite Z.mod_eq by lia. lia.
Qed.

Lemma ToInt32_congr (a b k : Z) : a = b + 2 ^ 32 * k -> ToInt32 a = ToInt32 b.
Proof.
  intros ->. unfold ToInt32. f_equal.
  replace (b + 2 ^ 32 * k + 2 ^ 31) with (b + 2 ^ 31 + k * 2 ^ 32) by lia.
  apply Z_mod_plus_full.
Qed.

Lemma and32_diag (x : Z) : and32 x x = ToInt32 x.
Proof.
  unfold and32. rewrite Z.land_diag.
  destruct (ToInt32_offset x) as [k Hk].
  apply (ToInt32_congr _ _ k). exact Hk.
Qed.

(** One step of [hashCode] is [31 * hash + char], as a 32-bit integer. *)
Lemma hashCode_step_poly (z : Z) (c : ascii) :
  hashCode_step (ToInt32 z) c = ToInt32 (31 * z + charCode c).
Proof.
  unfold hashCode_step. cbv zeta. rewrite and32_diag.
  unfold shl32. change (5 mod 32) with 5.
  rewrite Z.shiftl_mul_pow2 by lia.
  destruct (ToInt32_offset z) as [k1 H1].
  destruct (ToInt32_offset (ToInt32 z)) as [k2 H2].
  destruct (ToInt32_offset (ToInt32 (ToInt32 z) * 2 ^ 5)) as [k3 H3].
  apply (ToInt32_congr _ _ (32 * k2 + 32 * k1 + k3 - k1)).
  rewrite H3, H2, H1. lia.
Qed.

Lemma hashCode_loop_cons (c : ascii) (str : string) (h : Z) :
  hashCode_loop (String c str) h = hashCode_loop str (hashCode_step h c).
Proof. unfold hashCode_loop. reflexivity. Qed.

Lemma poly31_cons (c : ascii) (str : string) (h : Z) :
  poly31 (String c str) h = poly31 str (31 * h + charCode c).
Proof. reflexivity. Qed.

Lemma hashCode_loop_nil (h : Z) : hashCode_loop EmptyString h = h.
Proof. reflexivity. Qed.

Lemma poly31_nil (h : Z) : poly31 EmptyString h = h.
Proof. reflexivity. Qed.

Lemma hashCode_loop_poly (str : string) :
  forall z, hashCode_loop str (ToInt32 z) = ToInt32 (poly31 str z).
Proof.
  induction str as [| c str IH]; intros z.
  - rewrite hashCode_loop_nil, poly31_nil. reflexivity.
  - rewrite hashCode_loop_cons, poly31_cons, hashCode_step_poly. apply IH.
Qed.

Lemma ToInt32_range (u : Z) : - 2 ^ 31 <= ToInt32 u < 2 ^ 31.
Proof.
  unfold ToInt32.
  pose proof (Z.mod_pos_bound (u + 2 ^ 31) (2 ^ 32) ltac:(lia)). lia.
Qed.

(** X19.  [hashCode] is the absolute value of the base-31 polynomial hash
    of the string ([31 * h + char] from 0, character by character) wrapped
    to a signed 32-bit integer; it lies between 0 and 2^31, and its
    residue modulo 1000, which [seededRandom] divides by 1000, between 0
    and 999. *)
Theorem hashCode_polynomial (str : string) :
  hashCode str = Z.abs (ToInt32 (poly31 str 0))
  /\ 0 <= hashCode str <= 2 ^ 31
  /\ 0 <= Z.rem (hashCode str) 1000 < 1000.
Proof.
  assert (Heq : hashCode str = Z.abs (ToInt32 (poly31 str 0))).
  { unfold hashCode. f_equal.
    rewrite <- (hashCode_loop_poly str 0). reflexivity. }
  split; [exact Heq |].
  pose proof (ToInt32_range (poly31 str 0)) as Hr.
  split; [rewrite Heq; lia |].
  apply Z.rem_bound_pos; [rewrite Heq; lia | lia].
Qed.

(** X20.  For every seed, pixel and channel, [seededRandom] is at least 0
    and below 1, and the noise that [applyEdgeNoise] adds to a byte,
    [(seededRandom - 0.5) * 255 * noiseLevel], has magnitude at most 0.255:
    less than half a unit of a byte. *)
Theorem canvas_noise_below_half (seed0 : string) (x y channel : Z) :
  PrimFloat.leb 0 (seededRandom seed0 x y channel) = true
  /\ PrimFloat.ltb (seededRandom seed0 x y channel) 1 = true
  /\ PrimFloat.leb
       (PrimFloat.abs
          ((seededRandom seed0 x y channel - 0.5) * 255 * noiseLevel)%float)
       0.255 = true
  /\ PrimFloat.ltb 0.255 0.5 = true.
Proof.
  assert (Hall : forall_from 1000 0 noise_small = true)
    by (vm_compute; reflexivity).
  unfold seededRandom.
  set (hash := hashCode _).
  assert (Hm : 0 <= Z.rem hash 1000 < 1000).
  { apply Z.rem_bound_pos; [apply Z.abs_nonneg | lia]. }
  pose proof (forall_from_spec 1000 noise_small 0 Hall (Z.rem hash 1000)
                ltac:(lia)) as Hs.
  unfold noise_small in Hs.
  apply andb_true_iff in Hs. destruct Hs as [Hs H3].
  apply andb_true_iff in Hs. destruct Hs as [H1 H2].
  split; [exact H1 |]. split; [exact H2 |]. split; [exact H3 |].
  reflexivity.
Qed.

Import SeedManagerSeeds.

(** ** The engine object *)

Lemma clearSeed_preserves (domain : string) (st : state) :
  lifecycle_invariant st -> lifecycle_invariant (clearSeed domain st).
Proof. intros Hinv. exact (step_preserves st (ClearSeed domain) Hinv). Qed.

Lemma generateProfile_seed (seed0 : string) (catalog : list Archetype)
    (p : Profile) :
  generateProfile seed0 catalog = Normal p -> seed p = seed0.
Proof.
  unfold generateProfile. intros H.
  destruct (selectArchetype seed0 catalog) as [[| | a] | e];
    try discriminate H.
  cbn [bind] in H.
  destruct (selectOS seed0 a) as [o | e]; [| discriminate H].
  cbn [bind] in H.
  destruct (selectHardware seed0 a) as [hw | e]; [| discriminate H].
  cbn [bind] in H. injection H as <-. reflexivity.
Qed.

(** The state of the seed manager after the first two calls of
    [regenerateProfile]. *)
Lemma regenerated_seed (domain fresh : string) (st : state) :
  lifecycle_invariant st ->
  currentSeed (snd (generateSeed domain fresh (clearSeed domain st)))
  = val fresh
  /\ map_get (domainSeeds (snd (generateSeed domain fresh
                                   (clearSeed domain st)))) domain
     = val fresh.
Proof.
  intros Hinv. unfold generateSeed. cbn [snd]. split; [reflexivity |].
  rewrite store_then_get; [reflexivity |].
  exact (clearSeed_preserves domain st Hinv).
Qed.

(** X21.  [regenerateProfile] builds the new profile from the seed that its
    call of [generateSeed] produced, never from the seed in use before:
    the result is [generateProfile] of the fresh seed over the same
    catalog, and afterwards the fresh seed is the current seed and the seed
    kept for the domain.  A profile that is returned carries the fresh
    seed and becomes the current profile; when the generation throws, the
    current profile stays what it was. *)
Theorem regenerateProfile_uses_fresh_seed (domain fresh fresh' : string)
    (e : engine) :
  lifecycle_invariant (seedManager e) -> fresh <> ""%string ->
  fst (regenerateProfile domain fresh fresh' e)
  = generateProfile fresh (profiles e)
  /\ profiles (snd (regenerateProfile domain fresh fresh' e)) = profiles e
  /\ currentSeed (seedManager (snd (regenerateProfile domain fresh fresh' e)))
     = val fresh
  /\ map_get (domainSeeds
                (seedManager (snd (regenerateProfile domain fresh fresh' e))))
             domain
     = val fresh
  /\ (forall p, fst (regenerateProfile domain fresh fresh' e) = Normal p ->
        seed p = fresh
        /\ currentProfile (snd (regenerateProfile domain fresh fresh' e))
           = val p)
  /\ (is_throw (fst (regenerateProfile domain fresh fresh' e)) = true ->
      currentProfile (snd (regenerateProfile domain fresh fresh' e))
      = currentProfile e).
Proof.
  intros Hinv Hfresh.
  destruct (regenerated_seed domain fresh (seedManager e) Hinv) as [Hcur Hmap].
  unfold regenerateProfile, generateProfile_call.
  cbn [seedManager profiles currentProfile].
  set (sm := snd (generateSeed domain fresh (clearSeed domain (seedManager e))))
    in *.
  rewrite (getSeed_stable domain fresh' fresh sm Hcur Hfresh).
  destruct (generateProfile fresh (profiles e)) as [p | x] eqn:Hgen;
    cbn [fst snd profiles seedManager currentProfile is_throw].
  - split; [reflexivity |]. split; [reflexivity |].
    split; [exact Hcur |]. split; [exact Hmap |]. split.
    + intros p' Hp'. injection Hp' as <-.
      split; [exact (generateProfile_seed _ _ _ Hgen) | reflexivity].
    + discriminate.
  - split; [reflexivity |]. split; [reflexivity |].
    split; [exact Hcur |]. split; [exact Hmap |]. split.
    + intros p' Hp'. discriminate Hp'.
    + reflexivity.
Qed.

(** The engine as [init] leaves it on a first visit with the built-in
    catalog, before a profile is generated. *)
Lemma regenerateProfile_uses_fresh_seed_witness :
  lifecycle_invariant (seedManager sample_engine)
  /\ seed_b <> ""%string
  /\ fst (regenerateProfile "example.org" seed_b seed_a sample_engine)
     = generateProfile seed_b (profiles sample_engine).
Proof.
  assert (Hinv : lifecycle_invariant (seedManager sample_engine)).
  { split; [cbn; repeat constructor; set_solver | cbn; lia]. }
  assert (Hne : seed_b <> ""%string) by discriminate.
  split; [exact Hinv |]. split; [exact Hne |].
  exact (proj1 (regenerateProfile_uses_fresh_seed "example.org" seed_b seed_a
                  sample_engine Hinv Hne)).
Defined.

(** X22.  [getCurrentProfile] generates at most once: after a call that
    returned a profile, every further call returns that profile and leaves
    the engine as it is, whatever the domain; without a current profile the
    profile returned is the one generated from the seed [getSeed] gives.
    A call that throws stores no profile. *)
Theorem getCurrentProfile_cached (domain fresh domain' fresh' : string)
    (e : engine) :
  (forall p, fst (getCurrentProfile domain fresh e) = Normal p ->
     getCurrentProfile domain' fresh' (snd (getCurrentProfile domain fresh e))
     = (Normal p, snd (getCurrentProfile domain fresh e))
     /\ (currentProfile e = val p
         \/ generateProfile (fst (getSeed domain fresh (seedManager e)))
              (profiles e) = Normal p))
  /\ (is_throw (fst (getCurrentProfile domain fresh e)) = true ->
      currentProfile (snd (getCurrentProfile domain fresh e))
      = currentProfile e
      /\ forall p, currentProfile e <> val p).
Proof.
  unfold getCurrentProfile, generateProfile_call.
  destruct (currentProfile e) as [| | p0] eqn:Hcp.
  - destruct (getSeed domain fresh (seedManager e)) as [s sm].
    cbn [fst].
    destruct (generateProfile s (profiles e)) as [p | x];
      cbn [fst snd is_throw currentProfile]; split.
    + intros p' Hp'. injection Hp' as <-. split; [reflexivity | now right].
    + discriminate.
    + intros p' Hp'. discriminate Hp'.
    + intros _. split; [reflexivity | discriminate].
  - destruct (getSeed domain fresh (seedManager e)) as [s sm].
    cbn [fst].
    destruct (generateProfile s (profiles e)) as [p | x];
      cbn [fst snd is_throw currentProfile]; split.
    + intros p' Hp'. injection Hp' as <-. split; [reflexivity | now right].
    + discriminate.
    + intros p' Hp'. discriminate Hp'.
    + intros _. split; [reflexivity | discriminate].
  - cbn [fst snd is_throw]. split.
    + intros p' Hp'. injection Hp' as <-. rewrite ?Hcp.
      split; [reflexivity | now left].
    + discriminate.
Qed.

(** A first call on [sample_engine] generates the profile of [seed_b]; a
    call from another page then returns it again. *)
Lemma getCurrentProfile_cached_witness :
  fst (getCurrentProfile "example.org" seed_a sample_engine)
  = Normal default_profile_b
  /\ getCurrentProfile "other.example" seed_a
       (snd (getCurrentProfile "example.org" seed_a sample_engine))
     = (Normal default_profile_b,
        snd (getCurrentProfile "example.org" seed_a sample_engine)).
Proof.
  assert (H : fst (getCurrentProfile "example.org" seed_a sample_engine)
              = Normal default_profile_b) by (vm_compute; reflexivity).
  split; [exact H |].
  exact (proj1 (proj1 (getCurrentProfile_cached "example.org" seed_a
                         "other.example" seed_a sample_engine)
                  default_profile_b H)).
Defined.

(** ** The edge map, exactly *)

Lemma ta_get_ta_set {A : Type} (a : list A) (k i : Z) (v : A) :
  0 <= k < Z.of_nat (length a) ->
  ta_get (ta_set a k v) i = if k =? i then Some v else ta_get a i.
Proof.
  intros Hk. unfold ta_get, ta_set.
  destruct (Z.ltb_spec k 0) as [Hneg | _]; [lia |].
  destruct (Z.ltb_spec i 0) as [Hi | Hi].
  - destruct (Z.eqb_spec k i) as [-> | _]; [lia | reflexivity].
  - destruct (Z.eqb_spec k i) as [-> | Hne].
    + apply list_lookup_insert_eq. lia.
    + apply list_lookup_insert_ne. lia.
Qed.

(** A loop of stores, each at the key of its item and of the value that
    belongs to the key: afterwards a key of the loop holds its value and
    every other index holds what it held. *)
Lemma keyed_stores {A B : Type} (f : list A -> B -> list A) (key : B -> Z)
    (v : Z -> A) (l : list B) :
  forall e,
    (forall b e', In b l -> f e' b = ta_set e' (key b) (v (key b))) ->
    (forall b, In b l -> 0 <= key b < Z.of_nat (length e)) ->
    length (fold_left f l e) = length e
    /\ forall i, ta_get (fold_left f l e) i
                 = if existsb (fun b => key b =? i) l then Some (v i)
                   else ta_get e i.
Proof.
  induction l as [| b l IH]; intros e Hf Hkey; [split; reflexivity |].
  cbn [fold_left existsb].
  assert (Hb : f e b = ta_set e (key b) (v (key b)))
    by (apply Hf; now left).
  assert (Hlen : length (f e b) = length e)
    by (rewrite Hb; apply length_ta_set).
  destruct (IH (f e b)) as [IHlen IHget].
  - intros b' e' Hin. apply Hf. now right.
  - intros b' Hin. rewrite Hlen. apply Hkey. now right.
  - split; [now rewrite IHlen |].
    intros i. rewrite IHget, Hb.
    rewrite ta_get_ta_set by (apply Hkey; now left).
    destruct (Z.eqb_spec (key b) i) as [<- | _]; cbn [orb];
      [| reflexivity].
    now destruct (existsb _ l).
Qed.

(** The same for a loop of loops: [g] runs the inner loop of an item. *)
Lemma keyed_rows {A B : Type} (g : list A -> B -> list A)
    (keys : B -> Z -> bool) (v : Z -> A) (l : list B) :
  forall e,
    (forall b e', In b l -> length e' = length e ->
       length (g e' b) = length e'
       /\ forall i, ta_get (g e' b) i
                    = if keys b i then Some (v i) else ta_get e' i) ->
    length (fold_left g l e) = length e
    /\ forall i, ta_get (fold_left g l e) i
                 = if existsb (fun b => keys b i) l then Some (v i)
                   else ta_get e i.
Proof.
  induction l as [| b l IH]; intros e Hg; [split; reflexivity |].
  cbn [fold_left existsb].
  destruct (Hg b e (or_introl eq_refl) eq_refl) as [Hlen Hget].
  destruct (IH (g e b)) as [IHlen IHget].
  - intros b' e' Hin He'. apply Hg; [now right | congruence].
  - split; [congruence |].
    intros i. rewrite IHget, Hget.
    destruct (keys b i); cbn [orb]; [| reflexivity].
    now destruct (existsb _ l).
Qed.

Lemma pixel_of_index (w x y : Z) :
  0 <= x < w -> (y * w + x) mod w = x /\ (y * w + x) / w = y.
Proof.
  intros Hx. split.
  - rewrite Z.add_comm, Z.mod_add by lia. now apply Z.mod_small.
  - rewrite Z.add_comm, Z.div_add by lia. rewrite Z.div_small by lia. lia.
Qed.

Lemma edge_flag_interior (img : ImageData) (x y : Z) :
  1 <= x < width img - 1 -> 1 <= y < height img - 1 ->
  edge_flag img x y = if is_edge img x y then 1 else 0.
Proof.
  intros Hx Hy. unfold edge_flag.
  replace (1 <=? x) with true by (symmetry; apply Z.leb_le; lia).
  replace (x <? width img - 1) with true by (symmetry; apply Z.ltb_lt; lia).
  replace (1 <=? y) with true by (symmetry; apply Z.leb_le; lia).
  replace (y <? height img - 1) with true by (symmetry; apply Z.ltb_lt; lia).
  reflexivity.
Qed.

Lemma edge_flag_border (img : ImageData) (x y : Z) :
  ~ (1 <= x < width img - 1 /\ 1 <= y < height img - 1) ->
  edge_flag img x y = 0.
Proof.
  intros Hout. unfold edge_flag.
  destruct (Z.leb_spec 1 x); [| reflexivity].
  destruct (Z.ltb_spec x (width img - 1)); [| reflexivity].
  destruct (Z.leb_spec 1 y); [| reflexivity].
  destruct (Z.ltb_spec y (height img - 1)); [| reflexivity].
  exfalso. apply Hout. lia.
Qed.

(** X23.  The edge map that [detectEdges] returns has one entry per pixel,
    and the entry of the pixel [(x, y)] is 1 exactly when the pixel is not
    on the border and its Sobel magnitude exceeds 30, and 0 otherwise: no
    store of the loops is overwritten by a later one. *)
Theorem detectEdges_exact (max_length : Z) (img : ImageData)
    (edges : list Z) :
  detectEdges max_length img = Normal edges ->
  Z.of_nat (length edges) = width img * height img
  /\ forall x y, 0 <= x < width img -> 0 <= y < height img ->
       ta_get edges (y * width img + x) = Some (edge_flag img x y).
Proof.
  unfold detectEdges, new_Uint8ClampedArray. intros H.
  destruct ((width img * height img <? 0)
            || (max_length <? width img * height img)) eqn:Hbad;
    [discriminate |].
  cbn [bind] in H. injection H as <-.
  apply orb_false_iff in Hbad. destruct Hbad as [Hneg _].
  apply Z.ltb_ge in Hneg.
  set (w := width img) in *. set (h := height img) in *.
  set (e0 := replicate (Z.to_nat (w * h)) 0).
  assert (Hlen0 : Z.of_nat (length e0) = w * h).
  { unfold e0. rewrite length_replicate. lia. }
  set (v := fun k => edge_flag img (k mod w) (k / w)).
  set (keys := fun y i => existsb (fun x => y * w + x =? i) (zrange 1 (w - 1))).
  destruct (keyed_rows (mark_row img) keys v (zrange 1 (h - 1)) e0)
    as [Hlen Hget].
  { intros y e' Hy He'. apply In_zrange in Hy. unfold mark_row. fold w.
    apply (keyed_stores (mark_edge img y) (fun x => y * w + x) v).
    - intros x e'' Hx. apply In_zrange in Hx. unfold mark_edge. fold w.
      f_equal. unfold v.
      destruct (pixel_of_index w x y ltac:(lia)) as [-> ->].
      symmetry. apply edge_flag_interior; [exact Hx | exact Hy].
    - intros x Hx. apply In_zrange in Hx. rewrite He', Hlen0. nia. }
  split; [now rewrite Hlen |].
  intros x y Hx Hy. rewrite Hget.
  destruct (pixel_of_index w x y Hx) as [Hm Hd].
  destruct (existsb (fun b => keys b (y * w + x)) (zrange 1 (h - 1)))
    eqn:Hex.
  - unfold v. now rewrite Hm, Hd.
  - assert (Hinside : ta_get e0 (y * w + x) = Some 0).
    { unfold ta_get, e0.
      destruct (Z.ltb_spec (y * w + x) 0) as [Hlt | _]; [nia |].
      apply lookup_replicate. split; [reflexivity | nia]. }
    rewrite Hinside. f_equal. symmetry. apply edge_flag_border.
    intros [Hx' Hy'].
    assert (Htrue : existsb (fun b => keys b (y * w + x)) (zrange 1 (h - 1))
                    = true).
    { apply existsb_exists. exists y. split; [now apply In_zrange |].
      unfold keys. apply existsb_exists. exists x.
      split; [now apply In_zrange | apply Z.eqb_refl]. }
    congruence.
Qed.

(** The 3 x 3 sample image: the centre is marked, the border is not. *)
Lemma detectEdges_exact_witness :
  detectEdges ecma_max_length edge_image = Normal [0; 0; 0; 0; 1; 0; 0; 0; 0]
  /\ ta_get [0; 0; 0; 0; 1; 0; 0; 0; 0] (1 * width edge_image + 1)
     = Some (edge_flag edge_image 1 1).
Proof.
  assert (H : detectEdges ecma_max_length edge_image
              = Normal [0; 0; 0; 0; 1; 0; 0; 0; 0])
    by (vm_compute; reflexivity).
  split; [exact H |].
  apply (proj2 (detectEdges_exact ecma_max_length edge_image _ H) 1 1);
    vm_compute; split; congruence.
Defined.

(** ** The audio block *)

Lemma Qfloor_unique (x : Q) (k : Z) :
  (inject_Z k <= x)%Q -> (x < inject_Z (k + 1))%Q -> Qfloor x = k.
Proof.
  intros Hlo Hhi.
  assert (H1 : Qfloor x < k + 1).
  { rewrite Zlt_Qlt. apply Qle_lt_trans with x; [apply Qfloor_le | exact Hhi]. }
  assert (H2 : k < Qfloor x + 1).
  { rewrite Zlt_Qlt. apply Qle_lt_trans with x; [exact Hlo | apply Qlt_floor]. }
  lia.
Qed.

(** [randomChoice] on an array of two: the first element for a draw below
    one half, the second from one half on, and [undefined] for the draw
    1. *)
Lemma randomChoice_two {A : Type} (seed0 : string) (a b : A) (index : Z) :
  randomChoice seed0 [a; b] index
  = Normal (choice_of_two (random seed0 index) a b).
Proof.
  unfold randomChoice, randomInt, bind, choice_of_two. f_equal.
  cbn [length]. change (Z.of_nat 2 - 1 - 0 + 1) with 2.
  destruct (random_bounds seed0 index) as [H0 H1].
  set (r := random seed0 index) in *.
  destruct (Qle_bool 1 r) eqn:Hone.
  - apply Qle_bool_iff in Hone.
    rewrite (Qfloor_unique (r * inject_Z 2) 2); [reflexivity | |];
      [change (inject_Z 2) with 2%Q
      | change (inject_Z (2 + 1)) with 3%Q; change (inject_Z 2) with 2%Q];
      lra.
  - assert (Hlt : (r < 1)%Q).
    { apply Qnot_le_lt. intros Hle. apply Qle_bool_iff in Hle. congruence. }
    destruct (Qle_bool (1 # 2) r) eqn:Hhalf.
    + apply Qle_bool_iff in Hhalf.
      rewrite (Qfloor_unique (r * inject_Z 2) 1); [reflexivity | |];
        [change (inject_Z 1) with 1%Q
        | change (inject_Z (1 + 1)) with 2%Q];
        change (inject_Z 2) with 2%Q; lra.
    + assert (Hlow : (r < 1 # 2)%Q).
      { apply Qnot_le_lt. intros Hle. apply Qle_bool_iff in Hle. congruence. }
      rewrite (Qfloor_unique (r * inject_Z 2) 0); [reflexivity | |];
        [change (inject_Z 0) with 0%Q
        | change (inject_Z (0 + 1)) with 1%Q];
        change (inject_Z 2) with 2%Q; lra.
Qed.

(** X24.  [buildAudioProfile] never throws.  The sample rate is 44100 for
    a draw at index 7 below one half, 48000 from one half on and
    [undefined] for the draw 1; the channel count is 2, 6 or [undefined]
    in the same way, from the draw at index 8. *)
Theorem buildAudioProfile_values (seed0 : string) :
  buildAudioProfile seed0
  = Normal {| sampleRate := choice_of_two (random seed0 7) 44100 48000;
              maxChannelCount := choice_of_two (random seed0 8) 2 6 |}.
Proof.
  unfold buildAudioProfile. now rewrite !randomChoice_two.
Qed.

(** ** The seeds that [generateSeed] builds *)

Lemma length_string_app (a b : string) :
  String.length (a ++ b) = (String.length a + String.length b)%nat.
Proof.
  induction a as [| c a IH]; [reflexivity |].
  change (S (String.length (a ++ b))
          = S (String.length a + String.length b)). now f_equal.
Qed.

Lemma all_chars_app (P : ascii -> bool) (a b : string) :
  all_chars P (a ++ b) = all_chars P a && all_chars P b.
Proof.
  induction a as [| c a IH]; [reflexivity |].
  change (P c && all_chars P (a ++ b)
          = P c && all_chars P a && all_chars P b).
  rewrite IH. now destruct (P c).
Qed.

(** A 32-bit word as eight hex digits, and back. *)
Lemma word_hex (n : Z) :
  0 <= n < 2 ^ 32 ->
  String.length (padStart0 8 (toString16 n)) = 8%nat
  /\ all_chars is_hex_lower (padStart0 8 (toString16 n)) = true
  /\ parseInt16 (padStart0 8 (toString16 n)) = n.
Proof.
  intros Hn. unfold parseInt16, padStart0, toString16.
  set (digits := hex_digits _ _ _).
  assert (Hlen : (String.length digits <= 8)%nat).
  { pose proof (length_hex_digits (S (Z.to_nat (Z.log2 n))) 7 n EmptyString)
      as H.
    cbn [String.length] in H. fold digits in H.
    rewrite Nat.add_0_r in H. apply H.
    change (16 ^ Z.of_nat 8) with (2 ^ 32). exact Hn. }
  split; [rewrite length_zeros; lia |]. split.
  - apply zeros_lower, hex_digits_lower. reflexivity.
  - rewrite parse_hex_zeros. unfold digits.
    rewrite parse_hex_digits; [reflexivity |].
    split; [lia | apply fuel_enough; lia].
Qed.

Lemma substring_app (p b : string) :
  String.substring 0 (String.length p) (p ++ b) = p.
Proof. apply prefix_correct, prefix_app. Qed.

Lemma seed_of_words_cons (num : Z) (array : list Z) :
  seed_of_words (num :: array)
  = (padStart0 8 (toString16 num) ++ seed_of_words array)%string.
Proof. reflexivity. Qed.

Lemma words_of_seed_of_words (array : list Z) :
  Forall (fun num => 0 <= num < 2 ^ 32) array ->
  words_of_seed (length array) (seed_of_words array) = array.
Proof.
  induction 1 as [| num array Hnum _ IH]; [reflexivity |].
  rewrite seed_of_words_cons.
  destruct (word_hex num Hnum) as (Hlen & _ & Hparse).
  cbn [length words_of_seed]. rewrite <- Hlen at 1 3.
  rewrite substring_app, string_drop_app, Hparse. now f_equal.
Qed.

Lemma length_seed_of_words (array : list Z) :
  Forall (fun num => 0 <= num < 2 ^ 32) array ->
  String.length (seed_of_words array) = (8 * length array)%nat.
Proof.
  induction 1 as [| num array Hnum _ IH]; [reflexivity |].
  rewrite seed_of_words_cons, length_string_app, IH.
  destruct (word_hex num Hnum) as (-> & _). cbn [length]. lia.
Qed.

(** X25.  The seed that [generateSeed] builds from words below 2^32 has
    eight characters per word (64 for the eight words of the code), all of
    them lowercase hex digits, and it keeps every bit: two arrays of words
    with the same seed are the same array. *)
Theorem seed_of_words_faithful (array : list Z) :
  Forall (fun num => 0 <= num < 2 ^ 32) array ->
  String.length (seed_of_words array) = (8 * length array)%nat
  /\ all_chars is_hex_lower (seed_of_words array) = true
  /\ forall array',
       Forall (fun num => 0 <= num < 2 ^ 32) array' ->
       seed_of_words array = seed_of_words array' -> array = array'.
Proof.
  intros Hall. split; [now apply length_seed_of_words |]. split.
  - induction Hall as [| num array Hnum _ IH]; [reflexivity |].
    rewrite seed_of_words_cons, all_chars_app, IH.
    destruct (word_hex num Hnum) as (_ & -> & _). reflexivity.
  - intros array' Hall' Heq.
    assert (Hlen : length array = length array').
    { pose proof (length_seed_of_words array Hall) as H1.
      pose proof (length_seed_of_words array' Hall') as H2.
      rewrite Heq in H1. lia. }
    rewrite <- (words_of_seed_of_words array Hall).
    rewrite <- (words_of_seed_of_words array' Hall').
    now rewrite Heq, Hlen.
Qed.

Lemma seed_of_words_faithful_witness :
  Forall (fun num => 0 <= num < 2 ^ 32)
         [0; 1; 255; 4096; 65535; 305419896; 2147483648; 4294967295]
  /\ String.length
       (seed_of_words
          [0; 1; 255; 4096; 65535; 305419896; 2147483648; 4294967295])
     = 64%nat.
Proof.
  assert (Hall : Forall (fun num => 0 <= num < 2 ^ 32)
                   [0; 1; 255; 4096; 65535; 305419896; 2147483648;
                    4294967295])
    by (repeat constructor; lia).
  split; [exact Hall |].
  exact (proj1 (seed_of_words_faithful _ Hall)).
Defined.

Lemma toString16_digit (d : Z) :
  0 <= d < 16 -> toString16 d = String (hex_digit d) EmptyString.
Proof.
  intros Hd. unfold toString16.
  cbn [hex_digits]. rewrite Z.div_small, Z.mod_small by lia. reflexivity.
Qed.

Lemma fallback_loop (rnd : nat -> Q) (l : list nat) :
  (forall i, In i l -> (0 <= rnd i)%Q /\ (rnd i < 1)%Q) ->
  forall seed0,
    fold_left (fun s i => (s ++ toString16 (Qfloor (rnd i * 16)))%string)
              l seed0
    = (seed0
       ++ string_of_list_ascii
            (map (fun i => hex_digit (Qfloor (rnd i * 16))) l))%string.
Proof.
  induction l as [| i l IH]; intros Hrnd seed0.
  - cbn [fold_left map string_of_list_ascii].
    now rewrite string_app_empty_r.
  - cbn [fold_left map string_of_list_ascii].
    rewrite IH by (intros j Hj; apply Hrnd; now right).
    destruct (Hrnd i (or_introl eq_refl)) as [H0 H1].
    rewrite toString16_digit
      by (exact (floor_scaled (rnd i) 16 H0 H1 ltac:(lia))).
    clear. induction seed0 as [| c s IHs]; [reflexivity |].
    change (String c ((s ++ String (hex_digit (Qfloor (rnd i * 16))) "")
                      ++ string_of_list_ascii
                           (map (fun i0 => hex_digit (Qfloor (rnd i0 * 16))) l))
            = String c (s ++ String (hex_digit (Qfloor (rnd i * 16)))
                                (string_of_list_ascii
                                   (map (fun i0 =>
                                           hex_digit (Qfloor (rnd i0 * 16)))
                                        l)))).
    now f_equal.
Qed.

Lemma hex_string (f : nat -> Z) (l : list nat) :
  (forall i, In i l -> 0 <= f i < 16) ->
  String.length (string_of_list_ascii (map (fun i => hex_digit (f i)) l))
  = length l
  /\ all_chars is_hex_lower
       (string_of_list_ascii (map (fun i => hex_digit (f i)) l)) = true.
Proof.
  induction l as [| i l IH]; intros Hf; [split; reflexivity |].
  destruct IH as [IHlen IHall]; [intros j Hj; apply Hf; now right |].
  cbn [map string_of_list_ascii String.length all_chars length].
  rewrite IHlen, IHall, hex_digit_lower by (apply Hf; now left).
  split; reflexivity.
Qed.

(** X26.  With every [Math.random()] in [0, 1), [generateFallbackSeed]
    appends exactly one character per round: the seed is the 64 lowercase
    hex digits [floor(16 * random)], in the order of the calls. *)
Theorem generateFallbackSeed_digits (rnd : nat -> Q) :
  (forall i, (i < 64)%nat -> (0 <= rnd i)%Q /\ (rnd i < 1)%Q) ->
  generateFallbackSeed rnd
  = string_of_list_ascii
      (map (fun i => hex_digit (Qfloor (rnd i * 16))) (seq 0 64))
  /\ String.length (generateFallbackSeed rnd) = 64%nat
  /\ all_chars is_hex_lower (generateFallbackSeed rnd) = true.
Proof.
  intros Hrnd.
  assert (Heq : generateFallbackSeed rnd
                = string_of_list_ascii
                    (map (fun i => hex_digit (Qfloor (rnd i * 16)))
                         (seq 0 64))).
  { unfold generateFallbackSeed. rewrite fallback_loop; [reflexivity |].
    intros i Hi. apply Hrnd. apply in_seq in Hi. lia. }
  split; [exact Heq |]. rewrite Heq.
  destruct (hex_string (fun i => Qfloor (rnd i * 16)) (seq 0 64))
    as [Hlen Hall].
  { intros i Hi. apply in_seq in Hi.
    destruct (Hrnd i ltac:(lia)) as [H0 H1].
    exact (floor_scaled (rnd i) 16 H0 H1 ltac:(lia)). }
  split; [| exact Hall].
  rewrite Hlen. apply length_seq.
Qed.

(** The draws 0, 1/64, 2/64, ..., 63/64. *)
Lemma generateFallbackSeed_digits_witness :
  (forall i, (i < 64)%nat ->
     (0 <= sample_draws i)%Q /\ (sample_draws i < 1)%Q)
  /\ String.length (generateFallbackSeed sample_draws) = 64%nat.
Proof.
  assert (Hrnd : forall i, (i < 64)%nat ->
            (0 <= sample_draws i)%Q /\ (sample_draws i < 1)%Q).
  { intros i Hi. unfold sample_draws, Qle, Qlt. cbn [Qnum Qden]. lia. }
  split; [exact Hrnd |].
  exact (proj1 (proj2 (generateFallbackSeed_digits sample_draws Hrnd))).
Defined.
